(** * filterlib: Butterworth filter design (filter_design.cpp, utils.h)

    A shallow embedding of the zero/pole/gain design pipeline and of its
    second-order-section factorizer, with the properties of the written
    specification stated against it.

    Numbers.  The C++ code computes on [double] and [std::complex<double>].
    The embedding is written once over an interface [Double] of the
    operations the code uses, and is read at two instances:
    - [float], Rocq's primitive IEEE 754 binary64 numbers, on which every
      definition runs;
    - [R], exact real arithmetic, for the algebraic identities of the
      specification (which hold up to rounding on binary64).
    Properties that only depend on the control flow are proved for every
    instance.

    Library code.  [std::complex] arithmetic follows the textbook formulas,
    [std::abs] of a complex number is [sqrt (re^2 + im^2)], [std::sort] is a
    stable insertion sort, [std::min_element] and [std::find_if] return the
    first position that qualifies.  [size_t] is 64 bits wide and [int] 32.
    On binary64 the library's own [std::abs] and complex division can
    differ from these formulas in the last place, and [std::sort] may put
    equal keys in another order; the properties proved for every
    arithmetic do not depend on either, and the evaluations on binary64
    below use no complex division and compare magnitudes that are far
    apart. *)

From Stdlib Require Import String.
From Stdlib Require Import ZArith List Bool Lia Permutation.
From Stdlib Require Import PrimFloat Uint63 SpecFloat FloatOps.
From Stdlib Require Import Reals Lra.
Import ListNotations.

Local Open Scope Z_scope.
Local Open Scope list_scope.

(** ** The arithmetic interface *)

Class Double (D : Type) : Type := {
  d_of_Z : Z -> D;           (* conversion from int, integer literals *)
  d_add : D -> D -> D;
  d_sub : D -> D -> D;
  d_mul : D -> D -> D;
  d_div : D -> D -> D;
  d_neg : D -> D;
  d_abs : D -> D;            (* std::abs on double *)
  d_sqrt : D -> D;
  d_ltb : D -> D -> bool;    (* operator< *)
  d_eqb : D -> D -> bool;    (* operator== *)
  d_epsilon : D              (* std::numeric_limits<double>::epsilon() *)
}.

(** The part of <cmath> and the constant [PI] of utils.h that
    [analog_lowpass] needs. *)
Class Libm (D : Type) : Type := {
  PI : D;
  d_exp : D -> D;
  d_cos : D -> D;
  d_sin : D -> D
}.

(** binary64 *)
Definition float_of_Z (z : Z) : float :=
  if z <? 0 then PrimFloat.opp (PrimFloat.of_uint63 (Uint63.of_Z (- z)))
  else PrimFloat.of_uint63 (Uint63.of_Z z).

#[export] Instance Double_float : Double float := {
  d_of_Z := float_of_Z;
  d_add := PrimFloat.add;
  d_sub := PrimFloat.sub;
  d_mul := PrimFloat.mul;
  d_div := PrimFloat.div;
  d_neg := PrimFloat.opp;
  d_abs := PrimFloat.abs;
  d_sqrt := PrimFloat.sqrt;
  d_ltb := PrimFloat.ltb;
  d_eqb := PrimFloat.eqb;
  d_epsilon := 0x1p-52%float
}.

(** exact reals *)
Definition Rltb (x y : R) : bool := if Rlt_dec x y then true else false.
Definition Reqb (x y : R) : bool := if Req_dec_T x y then true else false.

#[export] Instance Double_R : Double R := {
  d_of_Z := IZR;
  d_add := Rplus;
  d_sub := Rminus;
  d_mul := Rmult;
  d_div := Rdiv;
  d_neg := Ropp;
  d_abs := Rabs;
  d_sqrt := sqrt;
  d_ltb := Rltb;
  d_eqb := Reqb;
  d_epsilon := (/ IZR (2 ^ 52))%R
}.

#[export] Instance Libm_R : Libm R := {
  PI := Rtrigo1.PI;
  d_exp := exp;
  d_cos := cos;
  d_sin := sin
}.

(** ** Results of a call

    A call returns, throws a C++ exception, stops on a failed [assert]
    (the sources never define NDEBUG), runs into undefined behaviour, or
    is still running when the fuel given to an unbounded loop is used up. *)

Inductive exn : Type :=
| invalid_argument (what : string)
| logic_error (what : string)
| out_of_range.

Inductive outcome (A : Type) : Type :=
| Ok (a : A)
| Throw (e : exn)
| Abort
| Undefined
| OutOfFuel.

Arguments Ok {A} a.
Arguments Throw {A} e.
Arguments Abort {A}.
Arguments Undefined {A}.
Arguments OutOfFuel {A}.

Definition bind {A B : Type} (c : outcome A) (k : A -> outcome B) : outcome B :=
  match c with
  | Ok a => k a
  | Throw e => Throw e
  | Abort => Abort
  | Undefined => Undefined
  | OutOfFuel => OutOfFuel
  end.

Notation "x <- c ;; k" := (bind c (fun x => k))
  (at level 61, c at next level, right associativity).
Notation "' p <- c ;; k" := (bind c (fun x => let 'p := x in k))
  (at level 61, p pattern, c at next level, right associativity).

(** The call returns normally. *)
Definition returns {A : Type} (c : outcome A) : Prop := exists a, c = Ok a.

(** [assert(b)] *)
Definition assert (b : bool) : outcome unit := if b then Ok tt else Abort.

(** ** Vectors *)

(** [v.at(i)] *)
Definition at_ {A : Type} (v : list A) (i : nat) : outcome A :=
  match nth_error v i with
  | Some x => Ok x
  | None => Throw out_of_range
  end.

(** [v.erase(v.begin() + i)] for a valid position [i] *)
Fixpoint erase {A : Type} (v : list A) (i : nat) : list A :=
  match v, i with
  | [], _ => []
  | _ :: v', O => v'
  | x :: v', S i' => x :: erase v' i'
  end.

(** [std::sort(first, last, comp)] *)
Fixpoint insert_sorted {A : Type} (comp : A -> A -> bool) (x : A) (v : list A) : list A :=
  match v with
  | [] => [x]
  | y :: v' => if comp y x then y :: insert_sorted comp x v' else x :: y :: v'
  end.

Fixpoint sort {A : Type} (comp : A -> A -> bool) (v : list A) : list A :=
  match v with
  | [] => []
  | x :: v' => insert_sorted comp x (sort comp v')
  end.

(** [std::min_element(first, last, comp) - first]; for an empty range the
    result is [last], position 0. *)
Fixpoint min_element_from {A : Type} (comp : A -> A -> bool) (v : list A)
    (i smallest_i : nat) (smallest : A) : nat :=
  match v with
  | [] => smallest_i
  | x :: v' =>
      if comp x smallest then min_element_from comp v' (S i) i x
      else min_element_from comp v' (S i) smallest_i smallest
  end.

Definition min_element {A : Type} (comp : A -> A -> bool) (v : list A) : nat :=
  match v with
  | [] => O
  | x :: v' => min_element_from comp v' 1%nat O x
  end.

(** [std::find_if(first, last, pred) - first]; [length v] when nothing
    qualifies. *)
Fixpoint find_if {A : Type} (pred : A -> bool) (v : list A) : nat :=
  match v with
  | [] => O
  | x :: v' => if pred x then O else S (find_if pred v')
  end.

(** Widths of the integer types. *)
Definition INT_MAX : Z := 2 ^ 31 - 1.

(** [a - b] on [size_t] *)
Definition size_t_sub (a b : nat) : Z := (Z.of_nat a - Z.of_nat b) mod 2 ^ 64.

(** conversion of a [size_t] value to [int] *)
Definition int_of_size_t (x : Z) : Z := (x + 2 ^ 31) mod 2 ^ 32 - 2 ^ 31.

(** ** Complex numbers and the records of filter_design.h, biquad.h *)

Record complex (D : Type) : Type := Cplx { re : D; im : D }.
Arguments Cplx {D} re im.
Arguments re {D} c.
Arguments im {D} c.

Record zpk (D : Type) : Type := Zpk {
  zeros : list (complex D);
  poles : list (complex D);
  gain : D
}.
Arguments Zpk {D} zeros poles gain.
Arguments zeros {D} z.
Arguments poles {D} z.
Arguments gain {D} z.

(** The coefficients a [biquad] is constructed from. *)
Record biquad (D : Type) : Type := Biquad { b0 : D; b1 : D; b2 : D; a1 : D; a2 : D }.
Arguments Biquad {D} b0 b1 b2 a1 a2.
Arguments b0 {D} b.
Arguments b1 {D} b.
Arguments b2 {D} b.
Arguments a1 {D} b.
Arguments a2 {D} b.

Section Program.

Context {D : Type} {DD : Double D}.

Local Abbreviation C := (complex D).

Definition c_of_double (x : D) : C := Cplx x (d_of_Z 0).
Definition c_of_int (n : Z) : C := c_of_double (d_of_Z n).

Definition c_neg (a : C) : C := Cplx (d_neg (re a)) (d_neg (im a)).
Definition c_conj (a : C) : C := Cplx (re a) (d_neg (im a)).
Definition c_add (a b : C) : C := Cplx (d_add (re a) (re b)) (d_add (im a) (im b)).
Definition c_sub (a b : C) : C := Cplx (d_sub (re a) (re b)) (d_sub (im a) (im b)).
Definition c_mul (a b : C) : C :=
  Cplx (d_sub (d_mul (re a) (re b)) (d_mul (im a) (im b)))
       (d_add (d_mul (re a) (im b)) (d_mul (im a) (re b))).
Definition c_div (a b : C) : C :=
  let n := d_add (d_mul (re b) (re b)) (d_mul (im b) (im b)) in
  Cplx (d_div (d_add (d_mul (re a) (re b)) (d_mul (im a) (im b))) n)
       (d_div (d_sub (d_mul (im a) (re b)) (d_mul (re a) (im b))) n).
Definition c_abs (a : C) : D :=
  d_sqrt (d_add (d_mul (re a) (re a)) (d_mul (im a) (im a))).

(** [x * a], [x + a] and [x - a] for a double [x]: the library copies (or
    negates) [a] and then updates its real part. *)
Definition d_times_c (x : D) (a : C) : C := Cplx (d_mul (re a) x) (d_mul (im a) x).
Definition d_plus_c (x : D) (a : C) : C := Cplx (d_add (re a) x) (im a).
Definition d_minus_c (x : D) (a : C) : C := Cplx (d_add (d_neg (re a)) x) (d_neg (im a)).

(** *** utils.h *)

(** [100 * std::numeric_limits<double>::epsilon()] *)
Definition tol : D := d_mul (d_of_Z 100) d_epsilon.

Definition is_real (z : C) : bool := d_ltb (d_abs (im z)) tol.

(** [std::accumulate] over [utils::is_real(zv)] *)
Definition count_real (zv : list C) : nat :=
  fold_left (fun acc (b : bool) => if b then S acc else acc) (map is_real zv) O.

(** Modelled from the spec: [utils::pop_nearest_real_complex] is declared
    in utils.h and its body is not part of the sources.  The header says
    it returns the real (or, for [real = false], the complex) element of
    [fro] closest to [to] and removes it from [fro]; the specification calls
    it nearest-element extraction.  Distance is [std::abs] of the
    difference, and the first of several nearest elements is taken.
    Neither text says what happens when [fro] has no element of the
    requested kind: that case is left undefined. *)
Fixpoint nearest_from (fro : list (complex D)) (to : complex D) (real : bool)
    (i : nat) (best : option (nat * D)) : option nat :=
  match fro with
  | [] => option_map fst best
  | x :: fro' =>
      if Bool.eqb (is_real x) real then
        let d := c_abs (c_sub x to) in
        match best with
        | None => nearest_from fro' to real (S i) (Some (i, d))
        | Some (_, db) =>
            if d_ltb d db then nearest_from fro' to real (S i) (Some (i, d))
            else nearest_from fro' to real (S i) best
        end
      else nearest_from fro' to real (S i) best
  end.

Definition pop_nearest_real_complex (fro : list C) (to : C) (real : bool)
  : outcome (C * list C) :=
  match nearest_from fro to real O None with
  | None => Undefined
  | Some i => x <- at_ fro i ;; Ok (x, erase fro i)
  end.

(** *** bilinear_transform *)

(** [for (int i = 0; i < degree; i++) v.push_back(x);], [n] rounds *)
Fixpoint push_n (n : nat) (x : complex D) (v : list (complex D)) : list (complex D) :=
  match n with
  | O => v
  | S n' => push_n n' x (v ++ [x])
  end.

Definition bilinear_transform (sys : zpk D) (sampling_frequency : D) : zpk D :=
  let degree := int_of_size_t (size_t_sub (length (poles sys)) (length (zeros sys))) in
  let fs2 := d_mul (d_of_Z 2) sampling_frequency in
  let zeros1 :=
    fold_left (fun v z => v ++ [c_div (d_plus_c fs2 z) (d_minus_c fs2 z)]) (zeros sys) [] in
  let poles1 :=
    fold_left (fun v p => v ++ [c_div (d_plus_c fs2 p) (d_minus_c fs2 p)]) (poles sys) [] in
  let zeros2 := push_n (Z.to_nat degree) (c_of_int (-1)) zeros1 in
  let prod_z :=
    fold_left (fun prod z => c_mul prod (d_minus_c fs2 z)) (zeros sys)
              (Cplx (d_of_Z 1) (d_of_Z 1)) in
  let prod_p :=
    fold_left (fun prod p => c_mul prod (d_minus_c fs2 p)) (poles sys)
              (Cplx (d_of_Z 1) (d_of_Z 1)) in
  Zpk zeros2 poles1 (d_mul (gain sys) (re (c_div prod_z prod_p))).

(** *** cplxpair *)

Definition complex_comparator (a b : C) : bool :=
  if d_eqb (re a) (re b) then d_ltb (im a) (im b) else d_ltb (re a) (re b).

(** The loop that distributes the sorted numbers over [z_r], [z_ip], [z_in]. *)
Fixpoint split_loop (z z_r z_ip z_in : list (complex D))
  : list (complex D) * list (complex D) * list (complex D) :=
  match z with
  | [] => (z_r, z_ip, z_in)
  | number :: z' =>
      if d_ltb (d_abs (im number)) tol then
        split_loop z' (z_r ++ [c_of_double (re number)]) z_ip z_in
      else if d_ltb (d_of_Z 0) (im number) then
        split_loop z' z_r (z_ip ++ [number]) z_in
      else
        split_loop z' z_r z_ip (z_in ++ [number])
  end.

(** The inner loop over [j]: is some [conj(z_in.at(j))] within [tol] of [a]? *)
Fixpoint found_conj (a : complex D) (z_in : list (complex D)) : bool :=
  match z_in with
  | [] => false
  | b :: z_in' =>
      if d_ltb (c_abs (c_sub a (c_conj b))) tol then true else found_conj a z_in'
  end.

Definition no_conjugate : exn :=
  invalid_argument "Array contains complex value with no matching conjugate"%string.

(** The outer loop over [i]. *)
Fixpoint check_loop (z_ip z_in : list (complex D)) : outcome unit :=
  match z_ip with
  | [] => Ok tt
  | a :: z_ip' =>
      if found_conj a z_in then check_loop z_ip' z_in else Throw no_conjugate
  end.

Definition cplxpair (z : list C) : outcome (list C * list C) :=
  let z := sort complex_comparator z in
  let '(z_r, z_ip, z_in) := split_loop z [] [] [] in
  if negb (length z_ip =? length z_in)%nat then Throw no_conjugate
  else
    _ <- check_loop z_ip z_in ;;
    Ok (z_r, z_ip).

(** *** zpk2tf *)

Definition complex_coefficients : exn :=
  logic_error "Filter coefficients are complex."%string.

(** [for (auto ai : a) if (!utils::is_real(ai)) throw ...] *)
Fixpoint all_real (a : list (complex D)) : outcome unit :=
  match a with
  | [] => Ok tt
  | ai :: a' => if is_real ai then all_real a' else Throw complex_coefficients
  end.

Definition zpk2tf (zpk_sos : zpk D) : outcome (biquad D) :=
  p0 <- at_ (poles zpk_sos) 0 ;;
  p1 <- at_ (poles zpk_sos) 1 ;;
  let a := [c_of_int 1; c_sub (c_neg p0) p1; c_mul p0 p1] in
  _ <- all_real a ;;
  z0 <- at_ (zeros zpk_sos) 0 ;;
  z1 <- at_ (zeros zpk_sos) 1 ;;
  let g := gain zpk_sos in
  let b := [d_times_c g (c_of_int 1);
            d_times_c g (c_sub (c_neg z0) z1);
            c_mul (d_times_c g z0) z1] in
  _ <- all_real b ;;
  Ok (Biquad (re (nth 0 b (c_of_int 0))) (re (nth 1 b (c_of_int 0)))
             (re (nth 2 b (c_of_int 0)))
             (re (nth 1 a (c_of_int 0))) (re (nth 2 a (c_of_int 0)))).

(** *** zpk2sos *)

(** One of the two padding loops,
    [for (int i = 0; i < other.size() - grown.size(); i++) grown.push_back(0);]
    The bound is evaluated afresh on [size_t] in every round, [i] is
    converted to [size_t] for the comparison, and [i++] at [INT_MAX] is
    undefined.  Memory is not modelled: a loop that would exhaust it is a
    loop that goes on. *)
Fixpoint pad_loop (fuel : nat) (i : Z) (other grown : list (complex D))
  : outcome (list (complex D)) :=
  match fuel with
  | O => OutOfFuel
  | S fuel' =>
      if i <? size_t_sub (length other) (length grown) then
        if i =? INT_MAX then Undefined
        else pad_loop fuel' (i + 1) other (grown ++ [c_of_int 0])
      else Ok grown
  end.

(** The preprocessing of lines 453-468: both padding loops, the
    assertion, [n_sections], and the extra pair for an odd count. *)
Definition preprocess (fuel : nat) (sys : zpk D) : outcome (nat * list C * list C) :=
  ps <- pad_loop fuel 0 (zeros sys) (poles sys) ;;
  zs <- pad_loop fuel 0 ps (zeros sys) ;;
  _ <- assert (length ps =? length zs)%nat ;;
  let n_sections := ((length zs + 1) / 2)%nat in
  if (length zs mod 2 =? 1)%nat
  then Ok (n_sections, ps ++ [c_of_int 0], zs ++ [c_of_int 0])
  else Ok (n_sections, ps, zs).

(** The comparison the poles are sorted with. *)
Definition closer_to_unit_circle (p1 p2 : C) : bool :=
  d_ltb (d_abs (d_sub (d_of_Z 1) (c_abs p1))) (d_abs (d_sub (d_of_Z 1) (c_abs p2))).

Definition nearer_to (p1 zi zj : C) : bool :=
  d_ltb (c_abs (c_sub p1 zi)) (c_abs (c_sub p1 zj)).

(** Lines 512-532: the zero [z1] that the pole [p1] is paired with when
    the section is not the first-order one.  [n_real] is the number of
    real entries of [poles] after [p1] was taken off. *)
Definition pick_z1 (p1 : C) (n_real : nat) (zeros : list C) : outcome (C * list C) :=
  if negb (is_real p1) && (n_real =? 1)%nat then
    '(z1, zeros) <- pop_nearest_real_complex zeros p1 false ;;
    _ <- assert (negb (is_real z1)) ;;
    Ok (z1, zeros)
  else
    let z1_idx := min_element (nearer_to p1) zeros in
    z1 <- at_ zeros z1_idx ;;
    Ok (z1, erase zeros z1_idx).

(** One round of the pairing loop (lines 494-576): the two poles and the
    two zeros of the new section, and what is left of [poles], [zeros]. *)
Definition pair_step (poles zeros : list C)
  : outcome (list C * list C * list C * list C) :=
  match poles with
  | [] => Undefined
  | p1 :: poles =>
      let n_real := count_real poles in
      if is_real p1 && (n_real =? 0)%nat then
        '(z1, zeros) <- pop_nearest_real_complex zeros p1 true ;;
        Ok ([p1; c_of_int 0], [z1; c_of_int 0], poles, zeros)
      else
        '(z1, zeros) <- pick_z1 p1 n_real zeros ;;
        if negb (is_real p1) then
          if negb (is_real z1) then
            Ok ([p1; c_conj p1], [z1; c_conj z1], poles, zeros)
          else
            '(z2, zeros) <- pop_nearest_real_complex zeros p1 true ;;
            _ <- assert (is_real z2) ;;
            Ok ([p1; c_conj p1], [z1; z2], poles, zeros)
        else
          if negb (is_real z1) then
            '(p2, poles) <- pop_nearest_real_complex poles z1 true ;;
            _ <- assert (is_real p2) ;;
            Ok ([p1; p2], [z1; c_conj z1], poles, zeros)
          else
            let p2_idx := find_if is_real poles in
            match nth_error poles p2_idx with
            | None => Undefined
            | Some p2 =>
                _ <- assert (is_real p2) ;;
                let poles := erase poles p2_idx in
                '(z2, zeros) <- pop_nearest_real_complex zeros p2 true ;;
                _ <- assert (is_real z2) ;;
                Ok ([p1; p2], [z1; z2], poles, zeros)
            end
  end.

(** State of the pairing loop: [poles], [zeros], [poles_sos], [zeros_sos]. *)
Definition pairing : Type := (list C * list C * list (list C) * list (list C))%type.

(** [for (int s = 0; s < n_sections; s++)], [n] rounds to go. *)
Fixpoint pair_loop (n : nat) (st : pairing) : outcome pairing :=
  match n with
  | O => Ok st
  | S n' =>
      let '(poles, zeros, poles_sos, zeros_sos) := st in
      '(ps, zs, poles, zeros) <- pair_step poles zeros ;;
      pair_loop n' (poles, zeros, poles_sos ++ [ps], zeros_sos ++ [zs])
  end.

(** [for (int s = n_sections - 1; s >= 0; s--)], entered with [s + 1]
    rounds to go.  [build] is what each section record is handed to:
    [zpk2tf] in the program. *)
Fixpoint emit_loop {B : Type} (build : zpk D -> outcome B) (n_sections : nat)
    (k : D) (zeros_sos poles_sos : list (list (complex D))) (s1 : nat) (sos : list B)
  : outcome (list B) :=
  match s1 with
  | O => Ok sos
  | S s =>
      let g := if (Z.of_nat s =? Z.of_nat n_sections - 1) then k else d_of_Z 1 in
      zs <- at_ zeros_sos s ;;
      ps <- at_ poles_sos s ;;
      b <- build (Zpk zs ps g) ;;
      emit_loop build n_sections k zeros_sos poles_sos s (sos ++ [b])
  end.

(** Lines 578-588: the closing assertion and the construction of the
    cascade, from the state the pairing loop ended in. *)
Definition finish {B : Type} (build : zpk D -> outcome B) (n_sections : nat)
    (k : D) (st : pairing) : outcome (list B) :=
  let '(poles, zeros, poles_sos, zeros_sos) := st in
  _ <- assert ((length poles =? 0)%nat && (length zeros =? 0)%nat) ;;
  emit_loop build n_sections k zeros_sos poles_sos n_sections [].

(** Lines 470-488: both arrays through [cplxpair], reals first, and the
    poles sorted. *)
Definition canonicalize (ps zs : list C) : outcome (list C * list C) :=
  poles_r_i <- cplxpair ps ;;
  let poles := fst poles_r_i ++ snd poles_r_i in
  zeros_r_i <- cplxpair zs ;;
  let zeros := fst zeros_r_i ++ snd zeros_r_i in
  Ok (sort closer_to_unit_circle poles, zeros).

Definition zpk2sos_with {B : Type} (build : zpk D -> outcome B) (fuel : nat)
    (sys : zpk D) : outcome (list B) :=
  '(n_sections, ps, zs) <- preprocess fuel sys ;;
  '(poles, zeros) <- canonicalize ps zs ;;
  st <- pair_loop n_sections (poles, zeros, [], []) ;;
  finish build n_sections (gain sys) st.

Definition zpk2sos (fuel : nat) (sys : zpk D) : outcome (list (biquad D)) :=
  zpk2sos_with zpk2tf fuel sys.

(** The section records [zpk2sos] hands to [zpk2tf], in the order in
    which the sections are emitted. *)
Definition zpk2sos_sections (fuel : nat) (sys : zpk D) : outcome (list (zpk D)) :=
  zpk2sos_with (fun s => Ok s) fuel sys.

End Program.

(** *** analog_lowpass *)

Section Prototype.

Context {D : Type} {DD : Double D} {LM : Libm D}.

(** [std::exp] of a complex number: [std::polar (exp re) im]. *)
Definition c_exp (a : complex D) : complex D :=
  Cplx (d_mul (d_exp (re a)) (d_cos (im a))) (d_mul (d_exp (re a)) (d_sin (im a))).

(** [-exp(std::complex<double>(0, PI * m / (2.0 * filter_order)))] *)
Definition prototype_pole (filter_order m : Z) : complex D :=
  c_neg (c_exp (Cplx (d_of_Z 0)
                     (d_div (d_mul PI (d_of_Z m))
                            (d_mul (d_of_Z 2) (d_of_Z filter_order))))).

(** [for (int m = ...; m < filter_order; m += 2)], at most [fuel] rounds.
    The counter is an [int]; for orders below [INT_MAX] none of its
    updates overflows. *)
Fixpoint lowpass_loop (fuel : nat) (filter_order m : Z) (poles : list (complex D))
  : list (complex D) :=
  match fuel with
  | O => poles
  | S fuel' =>
      if m <? filter_order then
        lowpass_loop fuel' filter_order (m + 2) (poles ++ [prototype_pole filter_order m])
      else poles
  end.

(** The loop leaves after [filter_order] rounds (lemma [lowpass_loop_done]
    below), so that much fuel runs it to its end. *)
Definition analog_lowpass (filter_order : Z) : zpk D :=
  Zpk [] (lowpass_loop (Z.to_nat filter_order) filter_order (- filter_order + 1) [])
      (d_of_Z 1).

End Prototype.

(** *** lp2lp, lp2hp, lp2bp, lp2bs *)

(** The part of <cmath> and <complex> that the frequency transforms call:
    [std::pow] with an [int] exponent on a double and on a complex number,
    and [std::sqrt] on a complex number. *)
Class Cmath (D : Type) : Type := {
  d_pow : D -> Z -> D;
  c_pow : complex D -> Z -> complex D;
  c_sqrt : complex D -> complex D
}.

(** On the reals: integer powers, and the principal square root. *)
Definition c_pow_R (z : complex R) (n : Z) : complex R :=
  let p := Nat.iter (Z.abs_nat n) (c_mul z) (c_of_int 1) in
  if n <? 0 then c_div (c_of_int 1) p else p.

Definition c_sqrt_R (z : complex R) : complex R :=
  let m := c_abs z in
  Cplx (sqrt ((m + re z) / 2))
       ((if Rlt_dec (im z) 0 then -1 else 1) * sqrt ((m - re z) / 2))%R.

#[export] Instance Cmath_R : Cmath R := {
  d_pow := powerRZ;
  c_pow := c_pow_R;
  c_sqrt := c_sqrt_R
}.

Section Transforms.

Context {D : Type} {DD : Double D} {CM : Cmath D}.

(** [a - x] and [x / a] for a double [x]. *)
Definition c_minus_d (a : complex D) (x : D) : complex D := Cplx (d_sub (re a) x) (im a).
Definition d_over_c (x : D) (a : complex D) : complex D := c_div (c_of_double x) a.

(** [int degree = zpk.poles.size() - zpk.zeros.size();] *)
Definition degree_of (sys : zpk D) : Z :=
  int_of_size_t (size_t_sub (length (poles sys)) (length (zeros sys))).

(** The running product [prod *= -x] over an array, from [1 + i]. *)
Definition negated_product (v : list (complex D)) : complex D :=
  fold_left (fun prod x => c_mul prod (c_neg x)) v (Cplx (d_of_Z 1) (d_of_Z 1)).

Definition lp2lp (sys : zpk D) (cutoff_frequency : D) : zpk D :=
  let degree := degree_of sys in
  let zeros1 :=
    fold_left (fun v z => v ++ [d_times_c cutoff_frequency z]) (zeros sys) [] in
  let poles1 :=
    fold_left (fun v p => v ++ [d_times_c cutoff_frequency p]) (poles sys) [] in
  Zpk zeros1 poles1 (d_mul (gain sys) (d_pow cutoff_frequency degree)).

Definition lp2hp (sys : zpk D) (cutoff_frequency : D) : zpk D :=
  let degree := degree_of sys in
  let zeros1 :=
    fold_left (fun v z => v ++ [d_over_c cutoff_frequency z]) (zeros sys) [] in
  let poles1 :=
    fold_left (fun v p => v ++ [d_over_c cutoff_frequency p]) (poles sys) [] in
  let zeros2 := push_n (Z.to_nat degree) (c_of_int 0) zeros1 in
  Zpk zeros2 poles1
      (d_mul (gain sys)
             (re (c_div (negated_product (zeros sys)) (negated_product (poles sys))))).

(** [x + sqrt (x^2 - center^2)] and [x - sqrt (x^2 - center^2)] *)
Definition band_plus (center : D) (x : complex D) : complex D :=
  c_add x (c_sqrt (c_minus_d (c_pow x 2) (d_pow center 2))).
Definition band_minus (center : D) (x : complex D) : complex D :=
  c_sub x (c_sqrt (c_minus_d (c_pow x 2) (d_pow center 2))).

Definition lp2bp (sys : zpk D) (passband_center passband_width : D) : zpk D :=
  let degree := degree_of sys in
  let half := d_div passband_width (d_of_Z 2) in
  let zeros1 :=
    fold_left (fun v z => v ++ [band_plus passband_center (d_times_c half z)])
              (zeros sys) [] in
  let zeros2 :=
    fold_left (fun v z => v ++ [band_minus passband_center (d_times_c half z)])
              (zeros sys) zeros1 in
  let poles1 :=
    fold_left (fun v p => v ++ [band_plus passband_center (d_times_c half p)])
              (poles sys) [] in
  let poles2 :=
    fold_left (fun v p => v ++ [band_minus passband_center (d_times_c half p)])
              (poles sys) poles1 in
  let zeros3 := push_n (Z.to_nat degree) (c_of_int 0) zeros2 in
  Zpk zeros3 poles2 (d_mul (gain sys) (d_pow passband_width degree)).

Definition lp2bs (sys : zpk D) (stopband_center stopband_width : D) : zpk D :=
  let degree := degree_of sys in
  let half := d_div stopband_width (d_of_Z 2) in
  let zeros1 :=
    fold_left (fun v z => v ++ [band_plus stopband_center (d_over_c half z)])
              (zeros sys) [] in
  let zeros2 :=
    fold_left (fun v z => v ++ [band_minus stopband_center (d_over_c half z)])
              (zeros sys) zeros1 in
  let poles1 :=
    fold_left (fun v p => v ++ [band_plus stopband_center (d_over_c half p)])
              (poles sys) [] in
  let poles2 :=
    fold_left (fun v p => v ++ [band_minus stopband_center (d_over_c half p)])
              (poles sys) poles1 in
  let zeros3 :=
    push_n (Z.to_nat degree) (Cplx (d_of_Z 0) stopband_center) zeros2 in
  let zeros4 :=
    push_n (Z.to_nat degree) (Cplx (d_of_Z 0) (d_neg stopband_center)) zeros3 in
  Zpk zeros4 poles2
      (d_mul (gain sys)
             (re (c_div (negated_product (zeros sys)) (negated_product (poles sys))))).

End Transforms.

(** ** Conjugate symmetry *)

Section Symmetry.

Context {D : Type} {DD : Double D}.

(** The array holds the conjugate of each of its entries, as often as the
    entry itself. *)
Definition conj_closed (v : list (complex D)) : Prop := Permutation (map c_conj v) v.

(** The entries that count as real have imaginary part 0, not just one
    below the tolerance. *)
Definition reals_exact (v : list (complex D)) : Prop :=
  forall z, In z v -> is_real z = true -> im z = d_of_Z 0.

(** A section of two poles (or zeros): a number and its conjugate, or two
    numbers with imaginary part 0. *)
Definition section_pair (v : list (complex D)) : Prop :=
  exists x y, v = [x; y] /\ (y = c_conj x \/ (im x = d_of_Z 0 /\ im y = d_of_Z 0)).

End Symmetry.

(** ** Vocabulary of the specification *)

Section Vocabulary.

Context {D : Type} {DD : Double D}.

(** The three classes [cplxpair] sorts a number into: real, or else
    positive-imaginary, or else negative-imaginary. *)
Definition positive_imag (z : complex D) : bool :=
  negb (is_real z) && d_ltb (d_of_Z 0) (im z).
Definition negative_imag (z : complex D) : bool :=
  negb (is_real z) && negb (d_ltb (d_of_Z 0) (im z)).

(** [|a - b| < tol] *)
Definition within_tol (a b : complex D) : bool := d_ltb (c_abs (c_sub a b)) tol.

(** The counts differ, or some [a] of [pos] has no [b] in [neg] with
    [|a - conj(b)| < tol]. *)
Definition unmatched (pos neg : list (complex D)) : Prop :=
  length pos <> length neg \/
  exists a, In a pos /\ forall b, In b neg -> within_tol a (c_conj b) = false.

(** "Imaginary part above the tolerance", "below the negative tolerance". *)
Definition above_tol (z : complex D) : bool := d_ltb tol (im z).
Definition below_neg_tol (z : complex D) : bool := d_ltb (im z) (d_neg tol).

(** Reals, representatives and the conjugates of the representatives, put
    back together. *)
Definition recombine (out : list (complex D) * list (complex D)) : list (complex D) :=
  fst out ++ snd out ++ map c_conj (snd out).

(** The product of a sequence of complex numbers. *)
Definition c_prod (l : list (complex D)) : complex D := fold_right c_mul (c_of_int 1) l.

(** "The overall gain sits in the last section of the returned sequence,
    every other section has gain 1." *)
Definition gain_in_last_section (fuel : nat) (sys : zpk D) : Prop :=
  forall secs, zpk2sos_sections fuel sys = Ok secs ->
  forall j s, nth_error secs j = Some s ->
    gain s = if (j =? length secs - 1)%nat then gain sys else d_of_Z 1.

(** The numbers of real and of non-real entries of an array. *)
Definition reals (v : list (complex D)) : nat := length (filter is_real v).
Definition nonreals (v : list (complex D)) : nat :=
  length (filter (fun z => negb (is_real z)) v).

(** [v] holds what [n] sections take: two real numbers or one
    representative of a conjugate pair for each. *)
Definition balanced (n : nat) (v : list (complex D)) : Prop :=
  (reals v + 2 * nonreals v = 2 * n)%nat.



(** Section 4.6, step 4 of the specification, second and third case: the
    zero a pole [p1] is paired with when the section is not the
    first-order one.  "If [p1] is complex and exactly one real zero
    remains: the nearest complex zero; else the globally nearest remaining
    zero."  To be compared with [pick_z1], which is lines 512-532. *)
Definition pick_z1_documented (p1 : complex D) (zeros : list (complex D))
  : outcome (complex D * list (complex D)) :=
  if negb (is_real p1) && (count_real zeros =? 1)%nat then
    pop_nearest_real_complex zeros p1 false
  else
    let z1_idx := min_element (nearer_to p1) zeros in
    z1 <- at_ zeros z1_idx ;;
    Ok (z1, erase zeros z1_idx).

(** Section 4.6, steps 5 and 6 of the specification: "after all sections
    are formed, every pole and zero must be consumed (fails with a logic
    error otherwise)", then the sections are emitted.  To be compared with
    [finish], which is lines 578-588. *)
Definition finish_documented {B : Type} (what : string) (build : zpk D -> outcome B)
    (n_sections : nat) (k : D) (st : pairing) : outcome (list B) :=
  let '(poles, zeros, poles_sos, zeros_sos) := st in
  if (length poles =? 0)%nat && (length zeros =? 0)%nat
  then emit_loop build n_sections k zeros_sos poles_sos n_sections []
  else Throw (logic_error what).

(** "Magnitude exactly 1." *)
Definition on_unit_circle (p : complex D) : Prop := c_abs p = d_of_Z 1.

(** The ways out of a design: a cascade of [n] biquads, the
    invalid-argument error of [cplxpair], or the logic error of [zpk2tf]. *)
Definition cascade_or_error (n : nat) (r : outcome (list (biquad D))) : Prop :=
  r = Throw no_conjugate \/
  r = Throw complex_coefficients \/
  exists sos, r = Ok sos /\ length sos = n.

End Vocabulary.

(** ** Inputs on binary64 *)

Local Open Scope float_scope.

Definition fcplx (x y : float) : complex float := Cplx x y.

(** Two conjugate pairs of zeros, two of poles, overall gain 5. *)
Definition two_sections : zpk float :=
  Zpk [fcplx 0.5 0.5; fcplx 0.5 (-0.5); fcplx (-0.25) 0.5; fcplx (-0.25) (-0.5)]
      [fcplx 0.5 0.25; fcplx 0.5 (-0.25); fcplx 0.875 0.125; fcplx 0.875 (-0.125)]
      5.

(** The section records of its cascade, as emitted. *)
Definition two_sections_first : zpk float :=
  Zpk [fcplx (-0.25) 0.5; fcplx (-0.25) (-0.5)] [fcplx 0.5 0.25; fcplx 0.5 (-0.25)] 5.
Definition two_sections_second : zpk float :=
  Zpk [fcplx 0.5 0.5; fcplx 0.5 (-0.5)] [fcplx 0.875 0.125; fcplx 0.875 (-0.125)] 1.

(** One pole and no zero. *)
Definition one_pole : zpk float := Zpk [] [fcplx 0.5 0] 1.

(** A single number whose imaginary part is the tolerance itself. *)
Definition on_the_boundary : list (complex float) := [fcplx 0 tol].

(** [1+i] twice, its conjugate once, and [2-i], which has no partner. *)
Definition unbalanced : list (complex float) :=
  [fcplx 1 1; fcplx 1 1; fcplx 1 (-1); fcplx 2 (-1)].




(** Arrays that are no state of a run of [zpk2sos]: a complex front pole,
    no other pole, and exactly one real zero among the zeros, the zero
    nearest to the pole. *)
Definition lone_real_zero_poles : list (complex float) := [fcplx 0.5 0.5].
Definition lone_real_zero_zeros : list (complex float) := [fcplx 0.5 0; fcplx (-0.5) 0.5].

(** Nor is this one: one section formed, one pole left. *)
Definition one_pole_left : pairing :=
  ([fcplx 0.25 0], [], [[fcplx 0.5 0.25; fcplx 0.5 (-0.25)]],
   [[fcplx 0.5 0.5; fcplx 0.5 (-0.5)]]).

(** An analog system with one pole at [-1], in exact arithmetic. *)
Definition analog_one_pole : zpk R := Zpk [] [Cplx (-1)%R 0%R] 1%R.

Local Close Scope float_scope.

(** ** Further inputs *)

Local Open Scope float_scope.

(** A conjugate pair and a real number. *)
Definition pair_and_real : list (complex float) := [fcplx 1 1; fcplx 1 (-1); fcplx 2 0].

(** Two real numbers. *)
Definition two_reals : list (complex float) := [fcplx 1 0; fcplx 0.5 0].

(** Two zeros and no pole. *)
Definition two_zeros : zpk float := Zpk [fcplx 0.5 0; fcplx 0.25 0] [] 1.

Local Close Scope float_scope.

(** In exact arithmetic: the pair [i], [-i]; a system of one real zero and
    one real pole. *)
Definition imaginary_pair : list (complex R) := [Cplx 0%R 1%R; Cplx 0%R (-1)%R].
Definition real_first_order : zpk R := Zpk [Cplx (-1)%R 0%R] [Cplx 0%R 0%R] 2%R.

(** ** The C library on binary64, at the arguments of order 9

    [exp], [cos] and [sin] are no operations of IEEE 754 arithmetic, so
    [float] has no instance of [Libm] of its own.  For the prototype of
    order 9 the nine angles [PI * m / 18], [m = -8, -6, ..., 8], are all
    the library is asked about.  The rows below give, for each of these
    angles as binary64 computes it, the binary64 numbers nearest to its
    cosine and to its sine, which are the values the C library returns;
    [exp 0] is 1.  Off the table the instance answers [nan]. *)

Local Open Scope float_scope.

Definition order_9_rows : list (float * (float * float)) :=
  [ (-0x1.657184ae74487p+0, (0x1.63a1a7e0b738cp-3, -0x1.f838b8c811c17p-1));
    (-0x1.0c152382d7365p+0, (0x1.0000000000001p-1, -0x1.bb67ae8584caap-1));
    (-0x1.657184ae74487p-1, (0x1.8836fa2cf5039p-1, -0x1.491b7523c161cp-1));
    (-0x1.657184ae74487p-2, (0x1.e11f642522d1cp-1, -0x1.5e3a8748a0bf5p-2));
    (0, (1, 0));
    (0x1.657184ae74487p-2, (0x1.e11f642522d1cp-1, 0x1.5e3a8748a0bf5p-2));
    (0x1.657184ae74487p-1, (0x1.8836fa2cf5039p-1, 0x1.491b7523c161cp-1));
    (0x1.0c152382d7365p+0, (0x1.0000000000001p-1, 0x1.bb67ae8584caap-1));
    (0x1.657184ae74487p+0, (0x1.63a1a7e0b738cp-3, 0x1.f838b8c811c17p-1)) ].

Fixpoint row_of (x : float) (rows : list (float * (float * float)))
  : option (float * float) :=
  match rows with
  | [] => None
  | (y, cs) :: rows' => if PrimFloat.eqb x y then Some cs else row_of x rows'
  end.

Definition libm_order_9 : Libm float := {|
  PI := 0x1.921fb54442d18p+1;
  d_exp := fun x => if PrimFloat.eqb x 0 then 1 else nan;
  d_cos := fun x => match row_of x order_9_rows with Some (c, _) => c | None => nan end;
  d_sin := fun x => match row_of x order_9_rows with Some (_, s) => s | None => nan end
|}.

(** The pole of order 9 for [m = 4], the seventh of the nine. *)
Definition order_9_pole : complex float :=
  fcplx (-0x1.8836fa2cf5039p-1) (-0x1.491b7523c161cp-1).

(** The integer [x * 2^53] for a binary64 number [x] that is a multiple
    of [2^-53], as the numbers of magnitude between 1/2 and 1 are. *)
Definition times_2_53 (x : float) : Z :=
  match Prim2SF x with
  | S754_finite s m e => ((if s then -1 else 1) * Z.pos m * 2 ^ (e + 53))%Z
  | _ => 0%Z
  end.

(** A conjugate pair of zeros, [0.68 +- 0.7 i] to the nearest binary64
    numbers, a conjugate pair of poles [0.5 +- 0.25 i], and a gain. *)
Definition scaled_pair (g : float) : zpk float :=
  Zpk [fcplx 0x1.5c28f5c28f5c3p-1 0x1.6666666666666p-1;
       fcplx 0x1.5c28f5c28f5c3p-1 (-0x1.6666666666666p-1)]
      [fcplx 0.5 0.25; fcplx 0.5 (-0.25)]
      g.

Local Close Scope float_scope.

(** * Properties *)

(** ** The result monad *)

Lemma bind_Ok_inv {A B : Type} (c : outcome A) (k : A -> outcome B) (b : B) :
  bind c k = Ok b -> exists a, c = Ok a /\ k a = Ok b.
Proof.
  destruct c as [a| | | |]; simpl; intro H; try discriminate.
  exists a; split; [reflexivity | exact H].
Qed.

Lemma assert_Ok_inv (b : bool) (u : unit) : assert b = Ok u -> b = true.
Proof. destruct b; simpl; [reflexivity | discriminate]. Qed.

(** Splits a hypothesis [bind c k = Ok b] into its two steps. *)
Ltac bind_inv H :=
  let a := fresh "a" in
  let Ha := fresh "Hstep" in
  apply bind_Ok_inv in H; destruct H as [a [Ha H]].

(** ** Vectors *)

Lemma insert_sorted_perm {A : Type} (comp : A -> A -> bool) (x : A) (v : list A) :
  Permutation (insert_sorted comp x v) (x :: v).
Proof.
  induction v as [|y v IH]; simpl.
  - apply Permutation_refl.
  - destruct (comp y x).
    + eapply perm_trans; [apply perm_skip, IH | apply perm_swap].
    + apply Permutation_refl.
Qed.

Lemma sort_perm {A : Type} (comp : A -> A -> bool) (v : list A) :
  Permutation (sort comp v) v.
Proof.
  induction v as [|x v IH]; simpl.
  - apply perm_nil.
  - eapply perm_trans; [apply insert_sorted_perm | apply perm_skip, IH].
Qed.

Lemma filter_perm {A : Type} (f : A -> bool) (u v : list A) :
  Permutation u v -> Permutation (filter f u) (filter f v).
Proof.
  induction 1 as [|x u v _ IH|x y u|u v w _ IH1 _ IH2]; simpl.
  - apply perm_nil.
  - destruct (f x); [apply perm_skip|]; exact IH.
  - destruct (f x), (f y); try apply Permutation_refl. apply perm_swap.
  - eapply perm_trans; eassumption.
Qed.

Lemma erase_filter_length {A : Type} (f : A -> bool) (v : list A) (i : nat) (x : A) :
  nth_error v i = Some x ->
  length (filter f v) = ((if f x then 1 else 0) + length (filter f (erase v i)))%nat.
Proof.
  revert i. induction v as [|y v IH]; intros [|i] H; cbn [nth_error] in H; try discriminate.
  - injection H as ->. cbn [erase filter]. destruct (f x); reflexivity.
  - cbn [erase filter]. destruct (f y); cbn [length]; rewrite (IH i H); lia.
Qed.

Lemma filter_nonempty_In {A : Type} (f : A -> bool) (v : list A) :
  (1 <= length (filter f v))%nat -> exists x, In x v /\ f x = true.
Proof.
  destruct (filter f v) as [|x r] eqn:E; cbn [length]; [lia|]. intros _.
  exists x. apply filter_In. rewrite E. left. reflexivity.
Qed.

Lemma min_element_from_bound {A : Type} (comp : A -> A -> bool) (v : list A) :
  forall (i smallest_i : nat) (smallest : A),
    (smallest_i < i)%nat ->
    (min_element_from comp v i smallest_i smallest < i + length v)%nat.
Proof.
  induction v as [|x v IH]; intros i si sm H; cbn [min_element_from length].
  - lia.
  - destruct (comp x sm).
    + specialize (IH (S i) i x). lia.
    + specialize (IH (S i) si sm). lia.
Qed.

(** On a non-empty range [min_element] points to an element. *)
Lemma min_element_valid {A : Type} (comp : A -> A -> bool) (v : list A) :
  v <> [] -> exists x, nth_error v (min_element comp v) = Some x.
Proof.
  destruct v as [|y v]; [contradiction|]. intros _.
  destruct (nth_error (y :: v) (min_element comp (y :: v))) as [x|] eqn:E.
  - exists x. reflexivity.
  - apply nth_error_None in E. cbn [min_element length] in E.
    pose proof (min_element_from_bound comp v 1 0 y). lia.
Qed.

(** [find_if] points to the first element that qualifies, if there is one. *)
Lemma find_if_valid {A : Type} (pred : A -> bool) (v : list A) :
  (exists x, In x v /\ pred x = true) ->
  exists y, nth_error v (find_if pred v) = Some y /\ pred y = true.
Proof.
  induction v as [|x v IH]; intros [y [Hy Hp]]; [contradiction|].
  cbn [find_if]. destruct (pred x) eqn:E.
  - exists x. split; [reflexivity | exact E].
  - destruct Hy as [->|Hy]; [congruence|].
    cbn [nth_error]. apply IH. exists y. split; assumption.
Qed.

Section Proofs.

Context {D : Type} {DD : Double D}.

Local Abbreviation C := (complex D).

(** ** The padding loops *)

(** With the arrays equally long a padding loop leaves at its first test. *)
Lemma pad_loop_equal (fuel : nat) (other grown : list C) :
  length other = length grown ->
  pad_loop (S fuel) 0 other grown = Ok grown.
Proof.
  intro E. cbn [pad_loop]. unfold size_t_sub. rewrite E, Z.sub_diag.
  reflexivity.
Qed.

(** A padding loop whose bound has wrapped around never leaves by its
    test: each round makes [grown] longer, and the bound stays above
    every value of [i]. *)
Lemma pad_loop_runaway (fuel : nat) (i : Z) (other grown : list C) :
  0 <= i <= INT_MAX ->
  (length other < length grown)%nat ->
  Z.of_nat (length grown) + (INT_MAX - i) < 2 ^ 63 ->
  pad_loop fuel i other grown = OutOfFuel \/ pad_loop fuel i other grown = Undefined.
Proof.
  revert i grown.
  induction fuel as [|fuel IH]; intros i grown Hi Hlen Hsz; cbn [pad_loop].
  - left; reflexivity.
  - assert (Hc : (i <? size_t_sub (length other) (length grown)) = true).
    { apply Z.ltb_lt. unfold size_t_sub, INT_MAX in *.
      rewrite <- (Z_mod_plus_full _ 1).
      rewrite Z.mod_small; lia. }
    rewrite Hc.
    destruct (i =? INT_MAX) eqn:Ei.
    + right; reflexivity.
    + apply Z.eqb_neq in Ei.
      apply IH.
      * lia.
      * rewrite length_app; cbn [length]; lia.
      * rewrite length_app; cbn [length]; lia.
Qed.

(** A padding loop entered with a gap of two or more between the
    lengths stops with [grown] still the shorter one: [i] goes up while
    the bound comes down. *)
Lemma pad_loop_stops_short (fuel : nat) (i : Z) (other grown r : list C) :
  0 <= i ->
  Z.of_nat (length other) < 2 ^ 63 ->
  2 <= i + (Z.of_nat (length other) - Z.of_nat (length grown)) ->
  i <= Z.of_nat (length other) - Z.of_nat (length grown) + 1 ->
  pad_loop fuel i other grown = Ok r ->
  (length r < length other)%nat.
Proof.
  revert i grown.
  induction fuel as [|fuel IH]; intros i grown Hi Ho Hsum Hle H; cbn [pad_loop] in H.
  - discriminate.
  - assert (Hsub : size_t_sub (length other) (length grown)
                   = Z.of_nat (length other) - Z.of_nat (length grown)).
    { unfold size_t_sub. apply Z.mod_small. lia. }
    rewrite Hsub in H.
    destruct (i <? Z.of_nat (length other) - Z.of_nat (length grown)) eqn:Ec.
    + apply Z.ltb_lt in Ec.
      destruct (i =? INT_MAX); [discriminate|].
      apply IH in H; [exact H | lia | exact Ho | |];
        rewrite length_app; cbn [length]; lia.
    + apply Z.ltb_ge in Ec. injection H as <-. lia.
Qed.

(** ** The preprocessing on arrays of unequal length *)

Lemma not_returns_bind {A B : Type} (c : outcome A) (k : A -> outcome B) :
  ~ returns c -> ~ returns (bind c k).
Proof.
  intros Hc [b Hb]. apply bind_Ok_inv in Hb. destruct Hb as [a [Ha _]].
  apply Hc. exists a. exact Ha.
Qed.

Lemma runaway_not_returns {A : Type} (c : outcome A) :
  c = OutOfFuel \/ c = Undefined -> ~ returns c.
Proof. intros [E|E] [a Ha]; rewrite E in Ha; discriminate. Qed.

(** More poles than zeros: the first loop runs away. *)
Lemma preprocess_more_poles (fuel : nat) (sys : zpk D) :
  (length (zeros sys) < length (poles sys))%nat ->
  Z.of_nat (length (poles sys)) < 2 ^ 62 ->
  ~ returns (preprocess fuel sys).
Proof.
  intros Hlt Hsz. unfold preprocess.
  apply not_returns_bind, runaway_not_returns, pad_loop_runaway.
  - unfold INT_MAX; lia.
  - exact Hlt.
  - unfold INT_MAX; lia.
Qed.

(** Two or more zeros in excess: the first loop stops too early and the
    second one runs away. *)
Lemma preprocess_more_zeros (fuel : nat) (sys : zpk D) :
  (length (poles sys) + 2 <= length (zeros sys))%nat ->
  Z.of_nat (length (zeros sys)) < 2 ^ 62 ->
  ~ returns (preprocess fuel sys).
Proof.
  intros Hlt Hsz [r H]. unfold preprocess in H.
  bind_inv H. bind_inv H.
  apply pad_loop_stops_short in Hstep; [| lia | lia | lia | lia].
  assert (Hr : returns (pad_loop fuel 0 a (zeros sys))) by (eexists; eassumption).
  revert Hr. apply runaway_not_returns, pad_loop_runaway.
  - unfold INT_MAX; lia.
  - exact Hstep.
  - unfold INT_MAX; lia.
Qed.

Lemma preprocess_equal (fuel : nat) (sys : zpk D) :
  length (zeros sys) = length (poles sys) ->
  preprocess (S fuel) sys =
  if (length (zeros sys) mod 2 =? 1)%nat
  then Ok (((length (zeros sys) + 1) / 2)%nat,
           poles sys ++ [c_of_int 0], zeros sys ++ [c_of_int 0])
  else Ok (((length (zeros sys) + 1) / 2)%nat, poles sys, zeros sys).
Proof.
  intro E. unfold preprocess.
  rewrite pad_loop_equal by exact E. cbn [bind].
  rewrite pad_loop_equal by (symmetry; exact E). cbn [bind].
  rewrite E, Nat.eqb_refl. reflexivity.
Qed.

(** ** The construction of the cascade *)

(** What [emit_loop] builds is built from the section records that
    [emit_loop] with the identity in place of [build] lists. *)
Lemma emit_loop_sections {B : Type} (build : zpk D -> outcome B) (n : nat) (k : D)
    (zeros_sos poles_sos : list (list C)) (s1 : nat) :
  forall (acc : list B) (accs : list (zpk D)) (sos : list B),
    Forall2 (fun s b => build s = Ok b) accs acc ->
    emit_loop build n k zeros_sos poles_sos s1 acc = Ok sos ->
    exists secs,
      emit_loop (fun s => Ok s) n k zeros_sos poles_sos s1 accs = Ok secs /\
      Forall2 (fun s b => build s = Ok b) secs sos.
Proof.
  induction s1 as [|s IH]; intros acc accs sos Hacc H; cbn [emit_loop] in *.
  - injection H as <-. exists accs. split; [reflexivity | exact Hacc].
  - bind_inv H. bind_inv H. bind_inv H.
    rewrite Hstep, Hstep0. cbn [bind].
    apply (IH _ (accs ++ [Zpk a a0 (if Z.of_nat s =? Z.of_nat n - 1 then k else d_of_Z 1)]))
      in H.
    + exact H.
    + apply Forall2_app; [exact Hacc|]. constructor; [exact Hstep1 | constructor].
Qed.

(** The gains of the section records, in the order of emission: round [s]
    uses the overall gain exactly when [s = n_sections - 1]. *)
Lemma emit_loop_gains (n : nat) (k : D) (zeros_sos poles_sos : list (list C)) (s1 : nat) :
  forall (accs secs : list (zpk D)),
    emit_loop (fun s => Ok s) n k zeros_sos poles_sos s1 accs = Ok secs ->
    exists new,
      secs = accs ++ new /\ length new = s1 /\
      forall j s, nth_error new j = Some s ->
        gain s = if Z.of_nat (s1 - 1 - j) =? Z.of_nat n - 1 then k else d_of_Z 1.
Proof.
  induction s1 as [|s1 IH]; intros accs secs H; cbn [emit_loop] in H.
  - injection H as <-. exists []. rewrite app_nil_r.
    repeat split. intros [|j] s Hj; discriminate.
  - bind_inv H. bind_inv H. cbn [bind] in H.
    apply IH in H. destruct H as [new [-> [Hlen Hg]]].
    eexists (_ :: new). rewrite <- app_assoc. cbn [app].
    split; [reflexivity|]. split; [cbn [length]; lia|].
    intros [|j] s Hj; cbn [nth_error] in Hj.
    + injection Hj as <-. cbn [gain].
      replace (S s1 - 1 - 0)%nat with s1 by lia. reflexivity.
    + rewrite (Hg _ _ Hj).
      replace (S s1 - 1 - S j)%nat with (s1 - 1 - j)%nat by lia. reflexivity.
Qed.

Lemma zpk2sos_with_sections {B : Type} (build : zpk D -> outcome B) (fuel : nat)
    (sys : zpk D) (sos : list B) :
  zpk2sos_with build fuel sys = Ok sos ->
  exists secs,
    zpk2sos_sections fuel sys = Ok secs /\
    Forall2 (fun s b => build s = Ok b) secs sos.
Proof.
  unfold zpk2sos_sections, zpk2sos_with. intro H.
  bind_inv H. destruct a as [[n ps] zs].
  bind_inv H. destruct a as [poles zeros].
  bind_inv H. destruct a as [[[poles' zeros'] poles_sos] zeros_sos].
  rewrite Hstep. cbn [bind]. rewrite Hstep0. cbn [bind]. rewrite Hstep1. cbn [bind].
  unfold finish in *. bind_inv H. rewrite Hstep2. cbn [bind].
  eapply emit_loop_sections; [constructor | exact H].
Qed.

Lemma zpk2sos_sections_gains (fuel : nat) (sys : zpk D) (secs : list (zpk D)) :
  zpk2sos_sections fuel sys = Ok secs ->
  forall j s, nth_error secs j = Some s ->
    gain s = if (j =? 0)%nat then gain sys else d_of_Z 1.
Proof.
  unfold zpk2sos_sections, zpk2sos_with. intro H.
  bind_inv H. destruct a as [[n ps] zs].
  bind_inv H. destruct a as [poles zeros].
  bind_inv H. destruct a as [[[poles' zeros'] poles_sos] zeros_sos].
  unfold finish in H. bind_inv H.
  apply emit_loop_gains in H. destruct H as [new [-> [Hlen Hg]]].
  cbn [app]. intros j s Hj. rewrite (Hg _ _ Hj).
  assert (Hjn : (j < n)%nat).
  { rewrite <- Hlen. apply nth_error_Some. rewrite Hj. discriminate. }
  destruct j as [|j]; cbn [Nat.eqb].
  - replace (Z.of_nat (n - 1 - 0)) with (Z.of_nat n - 1) by lia.
    rewrite Z.eqb_refl. reflexivity.
  - destruct (Z.eqb_spec (Z.of_nat (n - 1 - S j)) (Z.of_nat n - 1)); [lia | reflexivity].
Qed.

(** ** cplxpair *)

Lemma split_loop_spec (z z_r z_ip z_in : list C) :
  split_loop z z_r z_ip z_in =
  (z_r ++ map (fun c => c_of_double (re c)) (filter is_real z),
   z_ip ++ filter positive_imag z,
   z_in ++ filter negative_imag z).
Proof.
  revert z_r z_ip z_in.
  induction z as [|c z IH]; intros z_r z_ip z_in; cbn [split_loop filter map].
  - rewrite !app_nil_r. reflexivity.
  - assert (Hp : positive_imag c = negb (is_real c) && d_ltb (d_of_Z 0) (im c))
      by reflexivity.
    assert (Hn : negative_imag c = negb (is_real c) && negb (d_ltb (d_of_Z 0) (im c)))
      by reflexivity.
    rewrite Hp, Hn. change (d_ltb (d_abs (im c)) tol) with (is_real c).
    destruct (is_real c); destruct (d_ltb (d_of_Z 0) (im c)); cbn [negb andb];
      rewrite IH; cbn [map]; rewrite <- ?app_assoc; reflexivity.
Qed.

Lemma found_conj_spec (a : C) (z_in : list C) :
  found_conj a z_in = existsb (fun b => within_tol a (c_conj b)) z_in.
Proof.
  induction z_in as [|b z_in IH]; cbn [found_conj existsb]; [reflexivity|].
  unfold within_tol at 1. destruct (d_ltb _ tol); [reflexivity | exact IH].
Qed.

Lemma found_conj_false (a : C) (z_in : list C) :
  found_conj a z_in = false <->
  forall b, In b z_in -> within_tol a (c_conj b) = false.
Proof.
  rewrite found_conj_spec. split.
  - intros H b Hb. destruct (within_tol a (c_conj b)) eqn:E; [|reflexivity].
    rewrite <- H. symmetry. apply existsb_exists. exists b. split; assumption.
  - intro H. destruct (existsb _ z_in) eqn:E; [|reflexivity].
    apply existsb_exists in E. destruct E as [b [Hb Hw]].
    rewrite (H b Hb) in Hw. discriminate.
Qed.

Lemma check_loop_throws (z_ip z_in : list C) :
  check_loop z_ip z_in = Throw no_conjugate <->
  exists a, In a z_ip /\ found_conj a z_in = false.
Proof.
  induction z_ip as [|a z_ip IH]; cbn [check_loop].
  - split; [discriminate | intros [a [[] _]]].
  - destruct (found_conj a z_in) eqn:E.
    + rewrite IH. split.
      * intros [a' [Ha' Hf]]. exists a'. split; [right; exact Ha' | exact Hf].
      * intros [a' [[<-|Ha'] Hf]]; [congruence|]. exists a'. split; assumption.
    + split; [|reflexivity]. intros _. exists a. split; [left; reflexivity | exact E].
Qed.

Lemma check_loop_cases (z_ip z_in : list C) :
  check_loop z_ip z_in = Throw no_conjugate \/ check_loop z_ip z_in = Ok tt.
Proof.
  induction z_ip as [|a z_ip IH]; cbn [check_loop].
  - right; reflexivity.
  - destruct (found_conj a z_in); [exact IH | left; reflexivity].
Qed.

(** [cplxpair] in closed form. *)
Lemma cplxpair_unfold (z : list C) :
  let zs := sort complex_comparator z in
  cplxpair z =
  if negb (length (filter positive_imag zs) =? length (filter negative_imag zs))%nat
  then Throw no_conjugate
  else _ <- check_loop (filter positive_imag zs) (filter negative_imag zs) ;;
       Ok (map (fun c => c_of_double (re c)) (filter is_real zs), filter positive_imag zs).
Proof.
  cbv zeta. unfold cplxpair. rewrite split_loop_spec. cbn [app]. reflexivity.
Qed.

Lemma cplxpair_fails_or_returns (z : list C) :
  cplxpair z = Throw no_conjugate \/ exists out, cplxpair z = Ok out.
Proof.
  pose proof (cplxpair_unfold z) as H. cbv zeta in H. rewrite H.
  destruct (negb _); [left; reflexivity|].
  destruct (check_loop_cases (filter positive_imag (sort complex_comparator z))
                             (filter negative_imag (sort complex_comparator z)))
    as [E|E]; rewrite E; [left; reflexivity | right; eexists; reflexivity].
Qed.

Lemma unmatched_perm (p p' n n' : list C) :
  Permutation p p' -> Permutation n n' -> unmatched p n -> unmatched p' n'.
Proof.
  intros Hp Hn [Hlen|[a [Ha Hb]]].
  - left. rewrite <- (Permutation_length Hp), <- (Permutation_length Hn). exact Hlen.
  - right. exists a. split.
    + eapply Permutation_in; eassumption.
    + intros b Hb'. apply Hb. eapply Permutation_in; [apply Permutation_sym|]; eassumption.
Qed.

Lemma cplxpair_throws_sorted (z : list C) :
  let zs := sort complex_comparator z in
  cplxpair z = Throw no_conjugate <->
  unmatched (filter positive_imag zs) (filter negative_imag zs).
Proof.
  cbv zeta. rewrite cplxpair_unfold. cbv zeta. unfold unmatched.
  destruct (Nat.eqb_spec (length (filter positive_imag (sort complex_comparator z)))
                         (length (filter negative_imag (sort complex_comparator z))))
    as [E|E]; cbn [negb].
  - split.
    + intro H. right.
      destruct (check_loop _ _) eqn:Ec in H; cbn [bind] in H; try discriminate.
      injection H as ->.
      apply check_loop_throws in Ec. destruct Ec as [a [Ha Hf]].
      exists a. split; [exact Ha|]. apply found_conj_false. exact Hf.
    + intros [H|[a [Ha Hf]]]; [contradiction|].
      assert (Ec : check_loop (filter positive_imag (sort complex_comparator z))
                              (filter negative_imag (sort complex_comparator z))
                   = Throw no_conjugate).
      { apply check_loop_throws. exists a. split; [exact Ha|].
        apply found_conj_false. exact Hf. }
      rewrite Ec. reflexivity.
  - split; [intros _; left; exact E | reflexivity].
Qed.

(** ** The pairing loop *)

Lemma count_real_reals (v : list C) : count_real v = reals v.
Proof.
  unfold count_real, reals.
  assert (G : forall acc, fold_left (fun a (b : bool) => if b then S a else a)
                            (map is_real v) acc = (acc + length (filter is_real v))%nat).
  { induction v as [|x v IH]; intro acc; cbn [map fold_left filter].
    - cbn [length]. lia.
    - rewrite IH. destruct (is_real x); cbn [length]; lia. }
  rewrite G. reflexivity.
Qed.

Lemma length_reals_nonreals (v : list C) : length v = (reals v + nonreals v)%nat.
Proof.
  unfold reals, nonreals. induction v as [|x v IH]; cbn [filter length]; [reflexivity|].
  destruct (is_real x); cbn [negb length]; lia.
Qed.

Lemma balanced_0_nil (v : list C) : balanced 0 v -> v = [].
Proof.
  unfold balanced. intro H. pose proof (length_reals_nonreals v) as L.
  destruct v; [reflexivity | cbn [length] in L; lia].
Qed.

Lemma erase_counts (v : list C) (i : nat) (x : C) :
  nth_error v i = Some x ->
  reals v = ((if is_real x then 1 else 0) + reals (erase v i))%nat /\
  nonreals v = ((if is_real x then 0 else 1) + nonreals (erase v i))%nat.
Proof.
  intro H. unfold reals, nonreals. split.
  - apply erase_filter_length. exact H.
  - rewrite (erase_filter_length _ v i x H). destruct (is_real x); reflexivity.
Qed.

Lemma reals_perm (u v : list C) : Permutation u v -> reals u = reals v.
Proof. intro H. apply Permutation_length, filter_perm, H. Qed.

Lemma nonreals_perm (u v : list C) : Permutation u v -> nonreals u = nonreals v.
Proof. intro H. apply Permutation_length, filter_perm, H. Qed.

(** *** The modelled [pop_nearest_real_complex] *)

Lemma nearest_from_sound (full : list C) (to : C) (real : bool) (fro : list C) :
  forall (prefix : list C) (best : option (nat * D)) (i : nat),
    full = prefix ++ fro ->
    (forall bi d, best = Some (bi, d) ->
       exists x, nth_error full bi = Some x /\ is_real x = real) ->
    nearest_from fro to real (length prefix) best = Some i ->
    exists x, nth_error full i = Some x /\ is_real x = real.
Proof.
  induction fro as [|y fro IH]; intros prefix best i Hfull Hbest H; cbn [nearest_from] in H.
  - destruct best as [[bi d]|]; cbn [option_map fst] in H; [|discriminate].
    injection H as <-. apply (Hbest bi d). reflexivity.
  - assert (Hfull' : full = (prefix ++ [y]) ++ fro)
      by (rewrite <- app_assoc; exact Hfull).
    assert (Hlen : S (length prefix) = length (prefix ++ [y]))
      by (rewrite length_app; cbn [length]; lia).
    assert (Hy : nth_error full (length prefix) = Some y).
    { rewrite Hfull, nth_error_app2, Nat.sub_diag by lia. reflexivity. }
    rewrite Hlen in H.
    destruct (Bool.eqb (is_real y) real) eqn:Ek.
    + apply eqb_prop in Ek.
      assert (Hnew : forall bi d, Some (length prefix, c_abs (c_sub y to)) = Some (bi, d) ->
                exists x, nth_error full bi = Some x /\ is_real x = real).
      { intros bi d E. injection E as <- _. exists y. split; assumption. }
      destruct best as [[bi d]|].
      * destruct (d_ltb (c_abs (c_sub y to)) d).
        -- exact (IH _ _ _ Hfull' Hnew H).
        -- exact (IH _ _ _ Hfull' Hbest H).
      * exact (IH _ _ _ Hfull' Hnew H).
    + exact (IH _ _ _ Hfull' Hbest H).
Qed.

Lemma nearest_from_complete (to : C) (real : bool) (fro : list C) :
  forall (start : nat) (best : option (nat * D)),
    best <> None \/ (exists x, In x fro /\ is_real x = real) ->
    nearest_from fro to real start best <> None.
Proof.
  induction fro as [|y fro IH]; intros start best H; cbn [nearest_from].
  - destruct H as [H|[x [[] _]]]. destruct best; [discriminate | contradiction].
  - destruct (Bool.eqb (is_real y) real) eqn:Ek.
    + destruct best as [[bi d]|]; [destruct (d_ltb _ d)|]; apply IH; left; discriminate.
    + apply IH. destruct H as [H|[x [[->|Hx] Hr]]].
      * left. exact H.
      * rewrite Hr, eqb_reflx in Ek. discriminate.
      * right. exists x. split; assumption.
Qed.

(** When [fro] has an element of the requested kind, one such element is
    taken out of it and returned. *)
Lemma pop_nearest_real_complex_ok (fro : list C) (to : C) (real : bool) :
  (exists x, In x fro /\ is_real x = real) ->
  exists i x,
    pop_nearest_real_complex fro to real = Ok (x, erase fro i) /\
    nth_error fro i = Some x /\ is_real x = real.
Proof.
  intro H. unfold pop_nearest_real_complex.
  destruct (nearest_from fro to real 0 None) as [i|] eqn:E.
  - destruct (nearest_from_sound fro to real fro [] None i eq_refl) as [x [Hx Hr]].
    + intros bi d Hb. discriminate.
    + exact E.
    + exists i, x. unfold at_. rewrite Hx. cbn [bind]. repeat split; assumption.
  - exfalso. revert E. apply nearest_from_complete. right. exact H.
Qed.

(** Balanced arrays hold an even number of real entries, never just one. *)
Lemma balanced_not_one_real (n : nat) (v : list C) : balanced n v -> reals v <> 1%nat.
Proof. unfold balanced. lia. Qed.

Lemma reals_pos_In (v : list C) :
  (1 <= reals v)%nat -> exists x, In x v /\ is_real x = true.
Proof. apply filter_nonempty_In. Qed.

(** *** One round *)

(** One round on balanced arrays forms a section of two poles and two
    zeros and leaves the arrays balanced for one section less.  The
    numbers of real poles and of real zeros are even at the head of every
    round, so neither the first-order branch of line 503 nor the special
    case of line 512 is ever entered. *)
Lemma pair_step_balanced (n : nat) (poles zeros : list C) :
  balanced (S n) poles -> balanced (S n) zeros ->
  exists ps zs poles' zeros',
    pair_step poles zeros = Ok (ps, zs, poles', zeros') /\
    balanced n poles' /\ balanced n zeros' /\
    length ps = 2%nat /\ length zs = 2%nat.
Proof.
  unfold balanced. intros Hp Hz.
  destruct poles as [|p1 rest].
  { unfold reals, nonreals in Hp. cbn [filter length] in Hp. lia. }
  destruct (erase_counts (p1 :: rest) 0 p1 eq_refl) as [Hpr Hpn].
  cbn [erase] in Hpr, Hpn.
  assert (Hzne : zeros <> []).
  { intros ->. unfold reals, nonreals in Hz. cbn [filter length] in Hz. lia. }
  destruct (min_element_valid (nearer_to p1) zeros Hzne) as [z1 Hz1].
  destruct (erase_counts zeros _ z1 Hz1) as [Hzr Hzn].
  cbn [pair_step]. rewrite count_real_reals. unfold pick_z1.
  destruct (is_real p1) eqn:Ep1; cbn [negb andb].
  - (* real front pole: an odd number of real poles is left *)
    destruct (Nat.eqb_spec (reals rest) 0) as [E0|_]; [lia|].
    unfold at_ at 1. rewrite Hz1. cbn [bind].
    destruct (is_real z1) eqn:Ez1; cbn [negb].
    + (* real zero *)
      destruct (find_if_valid is_real rest) as [p2 [Hp2 Hr2]];
        [apply reals_pos_In; lia|].
      rewrite Hp2, Hr2. cbn [assert bind].
      destruct (erase_counts rest _ p2 Hp2) as [Hrr Hrn]. rewrite Hr2 in Hrr, Hrn.
      destruct (pop_nearest_real_complex_ok (erase zeros (min_element (nearer_to p1) zeros))
                  p2 true) as [i [z2 [Hpop [Hnth Hr]]]];
        [apply reals_pos_In; lia|].
      rewrite Hpop. cbn [bind]. rewrite Hr. cbn [assert bind].
      destruct (erase_counts _ _ z2 Hnth) as [Her Hen]. rewrite Hr in Her, Hen.
      do 4 eexists. split; [reflexivity|]. cbn [length]. repeat split; lia.
    + (* complex zero *)
      destruct (pop_nearest_real_complex_ok rest z1 true) as [i [p2 [Hpop [Hnth Hr]]]];
        [apply reals_pos_In; lia|].
      rewrite Hpop. cbn [bind]. rewrite Hr. cbn [assert bind].
      destruct (erase_counts _ _ p2 Hnth) as [Her Hen]. rewrite Hr in Her, Hen.
      do 4 eexists. split; [reflexivity|]. cbn [length]. repeat split; lia.
  - (* complex front pole: an even number of real poles is left *)
    destruct (Nat.eqb_spec (reals rest) 1) as [E1|_]; [lia|].
    unfold at_ at 1. rewrite Hz1. cbn [bind].
    destruct (is_real z1) eqn:Ez1; cbn [negb].
    + (* real zero *)
      destruct (pop_nearest_real_complex_ok (erase zeros (min_element (nearer_to p1) zeros))
                  p1 true) as [i [z2 [Hpop [Hnth Hr]]]];
        [apply reals_pos_In; lia|].
      rewrite Hpop. cbn [bind]. rewrite Hr. cbn [assert bind].
      destruct (erase_counts _ _ z2 Hnth) as [Her Hen]. rewrite Hr in Her, Hen.
      do 4 eexists. split; [reflexivity|]. cbn [length]. repeat split; lia.
    + (* complex zero *)
      do 4 eexists. split; [reflexivity|]. cbn [length]. repeat split; lia.
Qed.

(** *** All rounds *)

(** On balanced arrays the pairing loop forms its [n] sections and uses up
    every pole and every zero. *)
Lemma pair_loop_balanced (n : nat) :
  forall (poles zeros : list C) (poles_sos zeros_sos : list (list C)),
    balanced n poles -> balanced n zeros ->
    exists ps zs,
      pair_loop n (poles, zeros, poles_sos, zeros_sos)
        = Ok ([], [], poles_sos ++ ps, zeros_sos ++ zs) /\
      length ps = n /\ length zs = n.
Proof.
  induction n as [|n IH]; intros poles zeros poles_sos zeros_sos Hp Hz; cbn [pair_loop].
  - apply balanced_0_nil in Hp, Hz. subst. exists [], [].
    rewrite !app_nil_r. repeat split.
  - destruct (pair_step_balanced n poles zeros Hp Hz)
      as [ps [zs [poles' [zeros' [Hstep [Hp' [Hz' _]]]]]]].
    rewrite Hstep. cbn [bind].
    destruct (IH poles' zeros' (poles_sos ++ [ps]) (zeros_sos ++ [zs]) Hp' Hz')
      as [pss [zss [Hloop [Hlp Hlz]]]].
    exists (ps :: pss), (zs :: zss). rewrite Hloop, <- !app_assoc.
    cbn [app length]. repeat split; lia.
Qed.

(** *** From the entry of zpk2sos *)

Lemma three_classes (v : list C) :
  length v = (length (filter is_real v) + length (filter positive_imag v)
              + length (filter negative_imag v))%nat.
Proof.
  induction v as [|x v IH]; cbn [filter length]; [reflexivity|].
  unfold positive_imag at 1, negative_imag at 1.
  destruct (is_real x), (d_ltb (d_of_Z 0) (im x)); cbn [negb andb length]; lia.
Qed.

Lemma cplxpair_Ok_inv (z : list C) (out : list C * list C) :
  cplxpair z = Ok out ->
  out = (map (fun c => c_of_double (re c)) (filter is_real (sort complex_comparator z)),
         filter positive_imag (sort complex_comparator z)) /\
  length (filter positive_imag (sort complex_comparator z))
  = length (filter negative_imag (sort complex_comparator z)).
Proof.
  pose proof (cplxpair_unfold z) as U. cbv zeta in U. rewrite U. clear U.
  destruct (Nat.eqb_spec (length (filter positive_imag (sort complex_comparator z)))
                         (length (filter negative_imag (sort complex_comparator z))))
    as [E|E]; cbn [negb]; [|discriminate].
  intro H. bind_inv H. injection H as <-. split; [reflexivity | exact E].
Qed.

Section Balanced.

(** Zero is real within the tolerance: so it is on binary64 and on the
    reals. *)
Hypothesis zero_is_real : d_ltb (d_abs (d_of_Z 0)) (tol (D := D)) = true.

Lemma reals_of_doubles (v : list C) :
  reals (map (fun c => c_of_double (re c)) v) = length v /\
  nonreals (map (fun c => c_of_double (re c)) v) = O.
Proof.
  unfold reals, nonreals.
  induction v as [|x v [IHr IHn]]; cbn [map filter length]; [split; reflexivity|].
  change (is_real (c_of_double (re x))) with (d_ltb (d_abs (d_of_Z 0)) (tol (D := D))).
  rewrite zero_is_real. cbn [negb length]. split; [rewrite IHr; reflexivity | exact IHn].
Qed.

Lemma reals_of_positive (v : list C) :
  reals (filter positive_imag v) = O /\
  nonreals (filter positive_imag v) = length (filter positive_imag v).
Proof.
  unfold reals, nonreals.
  induction v as [|x v [IHr IHn]]; cbn [filter length]; [split; reflexivity|].
  destruct (positive_imag x) eqn:E; [|split; assumption].
  cbn [filter]. unfold positive_imag in E. apply andb_true_iff in E. destruct E as [E _].
  rewrite E. apply negb_true_iff in E. rewrite E. cbn [length].
  split; [exact IHr | rewrite IHn; reflexivity].
Qed.

Lemma reals_app (u v : list C) : reals (u ++ v) = (reals u + reals v)%nat.
Proof. unfold reals. rewrite filter_app, length_app. reflexivity. Qed.

Lemma nonreals_app (u v : list C) : nonreals (u ++ v) = (nonreals u + nonreals v)%nat.
Proof. unfold nonreals. rewrite filter_app, length_app. reflexivity. Qed.

(** What [cplxpair] returns for an array of [2 n] numbers is balanced for
    [n] sections. *)
Lemma cplxpair_balanced (n : nat) (z : list C) (out : list C * list C) :
  length z = (2 * n)%nat -> cplxpair z = Ok out -> balanced n (fst out ++ snd out).
Proof.
  intros Hlen H. apply cplxpair_Ok_inv in H. destruct H as [-> Heq]. cbn [fst snd].
  unfold balanced. rewrite reals_app, nonreals_app.
  destruct (reals_of_doubles (filter is_real (sort complex_comparator z))) as [-> ->].
  destruct (reals_of_positive (sort complex_comparator z)) as [-> ->].
  pose proof (three_classes (sort complex_comparator z)) as T.
  rewrite (Permutation_length (sort_perm complex_comparator z)) in T. lia.
Qed.

Lemma canonicalize_balanced (n : nat) (ps zs poles zeros : list C) :
  length ps = (2 * n)%nat -> length zs = (2 * n)%nat ->
  canonicalize ps zs = Ok (poles, zeros) ->
  balanced n poles /\ balanced n zeros.
Proof.
  intros Hp Hz H. unfold canonicalize in H.
  bind_inv H. bind_inv H. injection H as <- <-.
  apply (cplxpair_balanced n) in Hstep; [|exact Hp].
  apply (cplxpair_balanced n) in Hstep0; [|exact Hz].
  split; [|exact Hstep0].
  unfold balanced in *.
  rewrite (reals_perm _ _ (sort_perm closer_to_unit_circle _)).
  rewrite (nonreals_perm _ _ (sort_perm closer_to_unit_circle _)). exact Hstep.
Qed.

Lemma canonicalize_cases (ps zs : list C) :
  canonicalize ps zs = Throw no_conjugate \/
  exists poles zeros, canonicalize ps zs = Ok (poles, zeros).
Proof.
  unfold canonicalize.
  destruct (cplxpair_fails_or_returns ps) as [->|[o1 ->]]; [left; reflexivity|].
  cbn [bind].
  destruct (cplxpair_fails_or_returns zs) as [->|[o2 ->]]; [left; reflexivity|].
  cbn [bind]. right. eexists. eexists. reflexivity.
Qed.

Lemma emit_loop_returns (n : nat) (k : D) (zeros_sos poles_sos : list (list C)) (s1 : nat) :
  forall acc : list (zpk D),
    (s1 <= length zeros_sos)%nat -> (s1 <= length poles_sos)%nat ->
    exists secs,
      emit_loop (fun s => Ok s) n k zeros_sos poles_sos s1 acc = Ok secs /\
      length secs = (length acc + s1)%nat.
Proof.
  induction s1 as [|s IH]; intros acc Hz Hp; cbn [emit_loop].
  - exists acc. split; [reflexivity | lia].
  - unfold at_.
    destruct (nth_error zeros_sos s) as [zs|] eqn:Ez;
      [|apply nth_error_None in Ez; lia].
    destruct (nth_error poles_sos s) as [ps|] eqn:Ep;
      [|apply nth_error_None in Ep; lia].
    cbn [bind].
    destruct (IH (acc ++ [Zpk zs ps (if Z.of_nat s =? Z.of_nat n - 1 then k else d_of_Z 1)]))
      as [secs [Hs Hl]]; [lia | lia |].
    exists secs. split; [exact Hs|]. rewrite Hl, length_app. cbn [length]. lia.
Qed.

(** With equally many zeros and poles, or one zero more, the
    preprocessing returns arrays of [2 n] entries each, where
    [n = ceil (|zeros| / 2)] is the number of sections. *)
Lemma preprocess_returns (fuel : nat) (sys : zpk D) :
  length (zeros sys) = length (poles sys) \/ length (zeros sys) = S (length (poles sys)) ->
  exists ps zs,
    preprocess (S (S fuel)) sys = Ok (((length (zeros sys) + 1) / 2)%nat, ps, zs) /\
    length ps = (2 * ((length (zeros sys) + 1) / 2))%nat /\
    length zs = (2 * ((length (zeros sys) + 1) / 2))%nat.
Proof.
  intro H.
  assert (Hpad : pad_loop (S (S fuel)) 0 (zeros sys) (poles sys) = Ok (poles sys) /\
                 length (zeros sys) = length (poles sys) \/
                 pad_loop (S (S fuel)) 0 (zeros sys) (poles sys)
                   = Ok (poles sys ++ [c_of_int 0]) /\
                 length (zeros sys) = length (poles sys ++ [c_of_int 0])).
  { destruct H as [E|E].
    - left. split; [apply pad_loop_equal; exact E | exact E].
    - right. rewrite length_app. cbn [length]. split; [|lia].
      cbn [pad_loop]. unfold size_t_sub. rewrite length_app. cbn [length].
      replace (Z.of_nat (length (zeros sys)) - Z.of_nat (length (poles sys))) with 1 by lia.
      replace (Z.of_nat (length (zeros sys)) - Z.of_nat (length (poles sys) + 1)) with 0
        by lia.
      reflexivity. }
  assert (G : forall ps, pad_loop (S (S fuel)) 0 (zeros sys) (poles sys) = Ok ps ->
                         length (zeros sys) = length ps ->
              exists ps' zs,
                preprocess (S (S fuel)) sys = Ok (((length (zeros sys) + 1) / 2)%nat, ps', zs) /\
                length ps' = (2 * ((length (zeros sys) + 1) / 2))%nat /\
                length zs = (2 * ((length (zeros sys) + 1) / 2))%nat).
  { intros ps Hps Hl. unfold preprocess. rewrite Hps. cbn [bind].
    rewrite pad_loop_equal by (symmetry; exact Hl). cbn [bind].
    rewrite <- Hl, Nat.eqb_refl. cbn [assert bind].
    pose proof (Nat.div_mod_eq (length (zeros sys)) 2) as Hdm.
    pose proof (Nat.mod_upper_bound (length (zeros sys)) 2 ltac:(discriminate)) as Hub.
    pose proof (Nat.div_mod_eq (length (zeros sys) + 1) 2) as Hdm1.
    pose proof (Nat.mod_upper_bound (length (zeros sys) + 1) 2 ltac:(discriminate)) as Hub1.
    destruct (Nat.eqb_spec (length (zeros sys) mod 2) 1) as [E|E].
    - do 2 eexists. split; [reflexivity|]. rewrite !length_app. cbn [length]. lia.
    - do 2 eexists. split; [reflexivity|]. lia. }
  destruct Hpad as [[Hps Hl]|[Hps Hl]]; eapply G; eassumption.
Qed.

(** With equally many zeros and poles, or one zero more, [zpk2sos] gets
    through unless [cplxpair] rejects an array: the pairing loop forms
    [n = ceil (|zeros| / 2)] sections and uses up every pole and every
    zero, and [n] section records go to [zpk2tf]. *)
Lemma zpk2sos_sections_consume_all (fuel : nat) (sys : zpk D) :
  length (zeros sys) = length (poles sys) \/ length (zeros sys) = S (length (poles sys)) ->
  zpk2sos_sections (S (S fuel)) sys = Throw no_conjugate \/
  exists ps zs poles1 zeros1 poles_sos zeros_sos secs,
    preprocess (S (S fuel)) sys = Ok (((length (zeros sys) + 1) / 2)%nat, ps, zs) /\
    canonicalize ps zs = Ok (poles1, zeros1) /\
    pair_loop ((length (zeros sys) + 1) / 2) (poles1, zeros1, [], [])
      = Ok ([], [], poles_sos, zeros_sos) /\
    zpk2sos_sections (S (S fuel)) sys = Ok secs /\
    length secs = ((length (zeros sys) + 1) / 2)%nat.
Proof.
  intro H. unfold zpk2sos_sections, zpk2sos_with.
  destruct (preprocess_returns fuel sys H) as [ps [zs [Hpre [Hlp Hlz]]]].
  rewrite Hpre. cbn [bind].
  destruct (canonicalize_cases ps zs) as [Hc|[poles1 [zeros1 Hc]]].
  - left. rewrite Hc. reflexivity.
  - right. rewrite Hc. cbn [bind].
    destruct (canonicalize_balanced _ _ _ _ _ Hlp Hlz Hc) as [Bp Bz].
    destruct (pair_loop_balanced _ poles1 zeros1 [] [] Bp Bz) as [pss [zss [Hloop [Hl1 Hl2]]]].
    cbn [app] in Hloop. rewrite Hloop. cbn [bind finish length Nat.eqb andb assert].
    destruct (emit_loop_returns ((length (zeros sys) + 1) / 2) (gain sys) zss pss
                ((length (zeros sys) + 1) / 2) []) as [secs [Hs Hl]]; [lia | lia |].
    exists ps, zs, poles1, zeros1, pss, zss, secs.
    repeat split; assumption.
Qed.

(** *** The states the pairing loop runs through *)

(** The first [k] rounds of a run of the pairing loop are a run of [k]
    rounds: the state after them is what [after_rounds] speaks of. *)
Lemma pair_loop_app (k m : nat) :
  forall st : pairing,
    pair_loop (k + m) st = (st' <- pair_loop k st ;; pair_loop m st').
Proof.
  induction k as [|k IH]; intro st; cbn [Nat.add pair_loop bind]; [reflexivity|].
  destruct st as [[[poles zeros] poles_sos] zeros_sos].
  destruct (pair_step poles zeros) as [[[[ps zs] poles'] zeros']| | | |];
    cbn [bind]; try reflexivity.
  apply IH.
Qed.




End Balanced.

(** ** bilinear_transform and analog_lowpass, loop by loop *)

Lemma fold_left_push {A : Type} (f : A -> C) (l : list A) (acc : list C) :
  fold_left (fun v z => v ++ [f z]) l acc = acc ++ map f l.
Proof.
  revert acc. induction l as [|x l IH]; intro acc; cbn [fold_left map].
  - rewrite app_nil_r. reflexivity.
  - rewrite IH, <- app_assoc. reflexivity.
Qed.

Lemma push_n_repeat (n : nat) (x : C) (v : list C) :
  push_n n x v = v ++ repeat x n.
Proof.
  revert v. induction n as [|n IH]; intro v; cbn [push_n repeat].
  - rewrite app_nil_r. reflexivity.
  - rewrite IH, <- app_assoc. reflexivity.
Qed.

(** [int degree = poles.size() - zeros.size()] is the difference of the
    lengths as long as both fit an [int]. *)
Lemma degree_of_lengths (a b : nat) :
  Z.of_nat a < 2 ^ 31 -> Z.of_nat b < 2 ^ 31 ->
  int_of_size_t (size_t_sub a b) = Z.of_nat a - Z.of_nat b.
Proof.
  intros Ha Hb. unfold int_of_size_t, size_t_sub.
  destruct (Z.le_gt_cases 0 (Z.of_nat a - Z.of_nat b)) as [Hd|Hd].
  - rewrite (Z.mod_small (Z.of_nat a - Z.of_nat b)) by lia.
    rewrite Z.mod_small by lia. lia.
  - rewrite <- (Z_mod_plus_full (Z.of_nat a - Z.of_nat b) 1 (2 ^ 64)).
    rewrite (Z.mod_small (Z.of_nat a - Z.of_nat b + 1 * 2 ^ 64)) by lia.
    replace (Z.of_nat a - Z.of_nat b + 1 * 2 ^ 64 + 2 ^ 31)
      with (Z.of_nat a - Z.of_nat b + 2 ^ 31 + 2 ^ 32 * 2 ^ 32) by lia.
    rewrite Z_mod_plus_full.
    rewrite Z.mod_small by lia. lia.
Qed.

Context {LM : Libm D}.

(** [k] rounds of the prototype loop, each of them passing the test. *)
Lemma lowpass_loop_rounds (k : nat) (N m : Z) (acc : list C) :
  m + 2 * Z.of_nat k <= N + 1 ->
  lowpass_loop k N m acc =
  acc ++ map (fun j => prototype_pole N (m + 2 * Z.of_nat j)) (seq 0 k).
Proof.
  revert m acc. induction k as [|k IH]; intros m acc Hk; cbn [lowpass_loop seq map].
  - rewrite app_nil_r. reflexivity.
  - destruct (Z.ltb_spec m N) as [_|Hge]; [|lia].
    rewrite IH by lia. rewrite <- app_assoc. cbn [app].
    rewrite Z.add_0_r. do 2 f_equal.
    rewrite <- seq_shift, map_map. apply map_ext. intro j. f_equal. lia.
Qed.

(** After [filter_order] rounds the test of the loop fails: more fuel
    changes nothing. *)
Lemma lowpass_loop_done (N : Z) (extra : nat) :
  lowpass_loop (Z.to_nat N + extra) N (- N + 1) [] =
  lowpass_loop (Z.to_nat N) N (- N + 1) [].
Proof.
  assert (G : forall k m (acc : list C), m + 2 * Z.of_nat k >= N ->
              (k = O -> m >= N) ->
              lowpass_loop (k + extra) N m acc = lowpass_loop k N m acc).
  { induction k as [|k IH]; intros m acc Hk H0.
    - cbn [Nat.add lowpass_loop]. destruct extra as [|e]; [reflexivity|].
      cbn [lowpass_loop]. destruct (Z.ltb_spec m N); [specialize (H0 eq_refl); lia|].
      reflexivity.
    - cbn [Nat.add lowpass_loop]. destruct (Z.ltb_spec m N); [|reflexivity].
      apply IH; lia. }
  destruct (Z.le_gt_cases N 0) as [HN|HN].
  - replace (Z.to_nat N) with O by lia. apply (G O); lia.
  - apply G; lia.
Qed.

(** The arrays of [bilinear_transform], in every arithmetic. *)
Lemma bilinear_transform_arrays (sys : zpk D) (fs : D) :
  Z.of_nat (length (zeros sys)) < 2 ^ 31 ->
  Z.of_nat (length (poles sys)) < 2 ^ 31 ->
  let fs2 := d_mul (d_of_Z 2) fs in
  let tustin (x : C) := c_div (d_plus_c fs2 x) (d_minus_c fs2 x) in
  zeros (bilinear_transform sys fs) =
    map tustin (zeros sys)
    ++ repeat (c_of_int (-1))
         (Z.to_nat (Z.of_nat (length (poles sys)) - Z.of_nat (length (zeros sys)))) /\
  poles (bilinear_transform sys fs) = map tustin (poles sys).
Proof.
  intros Hz Hp fs2 tustin. unfold bilinear_transform. cbn [zeros poles].
  rewrite degree_of_lengths by assumption.
  rewrite !fold_left_push, push_n_repeat. split; reflexivity.
Qed.

(** The record of [analog_lowpass], in every arithmetic. *)
Lemma analog_lowpass_shape (N : Z) :
  1 <= N ->
  zeros (analog_lowpass N) = [] /\
  gain (analog_lowpass N) = d_of_Z 1 /\
  poles (analog_lowpass N) =
    map (fun j => prototype_pole N (- N + 1 + 2 * Z.of_nat j)) (seq 0 (Z.to_nat N)) /\
  length (poles (analog_lowpass N)) = Z.to_nat N.
Proof.
  intro HN. unfold analog_lowpass. cbn [zeros poles gain].
  rewrite lowpass_loop_rounds by lia. cbn [app].
  repeat split. rewrite length_map, length_seq. reflexivity.
Qed.

(** ** The claims that hold for every arithmetic *)

(** C1 (as the code has it): when [zpk2sos] returns a cascade, each of its
    biquads is [zpk2tf] of a section record, and the record of the FIRST
    section of the returned sequence carries the gain of the input while
    every later one carries gain 1.  The section formed last is emitted
    first, and it is the one the gain goes to. *)
Theorem zpk2sos_gain_in_first_section (fuel : nat) (sys : zpk D) (sos : list (biquad D)) :
  zpk2sos fuel sys = Ok sos ->
  exists secs,
    zpk2sos_sections fuel sys = Ok secs /\
    Forall2 (fun s b => zpk2tf s = Ok b) secs sos /\
    forall j s, nth_error secs j = Some s ->
      gain s = if (j =? 0)%nat then gain sys else d_of_Z 1.
Proof.
  intro H. apply zpk2sos_with_sections in H. destruct H as [secs [Hs Hb]].
  exists secs. split; [exact Hs|]. split; [exact Hb|].
  apply zpk2sos_sections_gains with (fuel := fuel). exact Hs.
Qed.

(** C3 (failing inputs): with more poles than zeros, or with two or more
    zeros in excess of the poles, the preprocessing of [zpk2sos] never
    gets past its padding loops, whatever the number of rounds it is
    given: the bound of a loop wraps around on [size_t], the array keeps
    growing, and the run ends in the overflow of the counter at the
    latest.  The arrays are never brought to equal length. *)
Theorem preprocess_unequal_runs_away (fuel : nat) (sys : zpk D) :
  Z.of_nat (length (zeros sys)) < 2 ^ 62 ->
  Z.of_nat (length (poles sys)) < 2 ^ 62 ->
  (length (zeros sys) < length (poles sys))%nat \/
  (length (poles sys) + 2 <= length (zeros sys))%nat ->
  ~ returns (preprocess fuel sys).
Proof.
  intros Hz Hp [H|H].
  - apply preprocess_more_poles; assumption.
  - apply preprocess_more_zeros; assumption.
Qed.

(** C4 (failing input): on the valid system with two real poles [x], [y]
    and no zeros, for which one section is due, [zpk2sos] returns no
    cascade at all, whatever the fuel: it is lost in the first padding
    loop. *)
Theorem zpk2sos_two_real_poles_no_zeros (fuel : nat) (x y g : D) :
  ~ returns (zpk2sos fuel (Zpk [] [c_of_double x; c_of_double y] g)).
Proof.
  unfold zpk2sos, zpk2sos_with.
  apply not_returns_bind, preprocess_more_poles; cbn [zeros poles length]; lia.
Qed.

(** C5 (as the code has it): [cplxpair] throws its invalid-argument error
    exactly when the positive-imaginary and the negative-imaginary
    elements are unmatched, where an element is positive-imaginary when
    it is not real within the tolerance and its imaginary part is above
    0, and negative-imaginary when it is not real and not positive (so
    the imaginary parts [tol] and [-tol] themselves count).  Otherwise it
    returns the real parts of the real elements and the
    positive-imaginary elements, both in sorted order. *)
Theorem cplxpair_fails_iff (z : list C) :
  (cplxpair z = Throw no_conjugate <->
   unmatched (filter positive_imag z) (filter negative_imag z)) /\
  (cplxpair z = Throw no_conjugate \/
   cplxpair z =
   Ok (map (fun c => c_of_double (re c)) (filter is_real (sort complex_comparator z)),
       filter positive_imag (sort complex_comparator z))).
Proof.
  split.
  - pose proof (cplxpair_throws_sorted z) as H. cbv zeta in H. rewrite H.
    pose proof (sort_perm complex_comparator z) as Hs.
    split; apply unmatched_perm;
      try (apply filter_perm; exact Hs);
      apply Permutation_sym, filter_perm; exact Hs.
  - pose proof (cplxpair_unfold z) as H. cbv zeta in H. rewrite H.
    destruct (negb _); [left; reflexivity|].
    destruct (check_loop_cases (filter positive_imag (sort complex_comparator z))
                               (filter negative_imag (sort complex_comparator z)))
      as [E|E]; rewrite E; [left | right]; reflexivity.
Qed.



(** C10: on a system without zeros and without poles [zpk2sos] returns the
    empty cascade, whatever the gain; the gain is dropped.  One round of
    fuel is enough for each padding loop to make its first test. *)
Theorem zpk2sos_empty (fuel : nat) (g : D) :
  zpk2sos (S fuel) (Zpk [] [] g) = Ok [].
Proof.
  unfold zpk2sos, zpk2sos_with.
  rewrite preprocess_equal by reflexivity.
  reflexivity.
Qed.

End Proofs.

(** ** Exact arithmetic *)

Section Exact.

Local Open Scope R_scope.

(** Unfolds the complex operations down to the operations of [R]. *)
Ltac to_R :=
  unfold c_prod, c_div, c_mul, c_add, c_sub, c_neg, c_conj, c_abs, c_exp, c_of_int,
    c_of_double, d_times_c, d_plus_c, d_minus_c in *;
  cbn [re im d_of_Z d_add d_sub d_mul d_div d_neg d_abs d_sqrt d_exp d_cos d_sin
       PI Double_R Libm_R] in *.

Lemma c_mul_assoc_R (a b c : complex R) : c_mul (c_mul a b) c = c_mul a (c_mul b c).
Proof. destruct a, b, c. to_R. f_equal; ring. Qed.

Lemma c_mul_one_R (a : complex R) : c_mul a (c_of_int 1) = a.
Proof. destruct a. to_R. f_equal; ring. Qed.

(** The running product of the gain computation, whatever it starts from. *)
Lemma fold_left_c_mul_R (g : complex R -> complex R) (l : list (complex R))
    (init : complex R) :
  fold_left (fun prod z => c_mul prod (g z)) l init = c_mul init (c_prod (map g l)).
Proof.
  revert init. induction l as [|x l IH]; intro init; cbn [fold_left map].
  - unfold c_prod. cbn [fold_right]. rewrite c_mul_one_R. reflexivity.
  - rewrite IH. unfold c_prod. cbn [fold_right]. apply c_mul_assoc_R.
Qed.

(** Both products start from [1 + i]; the factor cancels in the quotient. *)
Lemma seed_cancels (a b : complex R) :
  re (c_div (c_mul (Cplx 1 1) a) (c_mul (Cplx 1 1) b)) = re (c_div a b).
Proof.
  destruct a as [ar ai], b as [br bi]. to_R.
  destruct (Req_dec (br * br + bi * bi) 0) as [E|E].
  - assert (Hbr : br = 0) by nra. assert (Hbi : bi = 0) by nra. subst br bi.
    unfold Rdiv.
    replace ((1 * 0 - 1 * 0) * (1 * 0 - 1 * 0) + (1 * 0 + 1 * 0) * (1 * 0 + 1 * 0)) with 0 by ring.
    replace (0 * 0 + 0 * 0) with 0 by ring.
    rewrite Rinv_0. ring.
  - field. split; [exact E | nra].
Qed.


(** The poles of the prototype in exact arithmetic: [- exp (i theta)] is
    [(- cos theta, - sin theta)], on the unit circle. *)
Lemma prototype_pole_R (N m : Z) :
  prototype_pole N m =
  Cplx (- cos (Rtrigo1.PI * IZR m / (2 * IZR N))) (- sin (Rtrigo1.PI * IZR m / (2 * IZR N))).
Proof.
  unfold prototype_pole. to_R. rewrite exp_0, !Rmult_1_l. reflexivity.
Qed.

Lemma unit_circle (theta : R) : on_unit_circle (Cplx (- cos theta) (- sin theta)).
Proof.
  unfold on_unit_circle. to_R.
  replace (- cos theta * - cos theta + - sin theta * - sin theta)
    with (Rsqr (sin theta) + Rsqr (cos theta)) by (unfold Rsqr; ring).
  rewrite sin2_cos2. apply sqrt_1.
Qed.

(** Numbers within [delta] of a cosine and of the sine of the same angle
    make a point within [2 delta] of the unit circle. *)
Lemma near_unit_circle (C S c s delta : R) :
  C * C + S * S = 1 ->
  Rabs (c - C) <= delta -> Rabs (s - S) <= delta ->
  Rabs (sqrt (c * c + s * s) - 1) <= 2 * delta.
Proof.
  intros H1 Hc Hs.
  assert (Hc' : - delta <= c - C <= delta).
  { pose proof (Rle_abs (c - C)) as A1. pose proof (Rle_abs (- (c - C))) as A2.
    rewrite Rabs_Ropp in A2. lra. }
  assert (Hs' : - delta <= s - S <= delta).
  { pose proof (Rle_abs (s - S)) as A1. pose proof (Rle_abs (- (s - S))) as A2.
    rewrite Rabs_Ropp in A2. lra. }
  clear Hc Hs.
  set (e1 := c - C) in *. set (e2 := s - S) in *.
  assert (Hd : 0 <= delta) by lra.
  assert (Hnn : 0 <= c * c + s * s) by nra.
  pose proof (sqrt_pos (c * c + s * s)) as Ha0.
  pose proof (sqrt_sqrt _ Hnn) as Ha2.
  set (a := sqrt (c * c + s * s)) in *.
  set (u := C * e1 + S * e2).
  assert (Ec : c = C + e1) by (unfold e1; ring).
  assert (Es : s = S + e2) by (unfold e2; ring).
  assert (Ea : a * a = 1 + 2 * u + (e1 * e1 + e2 * e2)).
  { rewrite Ha2, Ec, Es. unfold u. nra. }
  assert (CS : u * u <= e1 * e1 + e2 * e2).
  { assert (L : (e1 * e1 + e2 * e2) - u * u = (C * e2 - S * e1) * (C * e2 - S * e1)).
    { unfold u. replace (e1 * e1 + e2 * e2) with ((C * C + S * S) * (e1 * e1 + e2 * e2))
        by (rewrite H1; ring). ring. }
    pose proof (Rle_0_sqr (C * e2 - S * e1)) as Q. unfold Rsqr in Q. lra. }
  assert (Hau : 1 + u <= a).
  { destruct (Rle_dec (1 + u) 0) as [Hn|Hp]; [lra|].
    apply Rnot_le_lt in Hp. nra. }
  assert (E2 : e1 * e1 + e2 * e2 <= 2 * (delta * delta)) by nra.
  assert (Hsq : (a - 1) * (a - 1) <= (2 * delta) * (2 * delta)) by nra.
  apply Rabs_le. split; nra.
Qed.

(** C7 (as the code has it): for an order [N >= 1] (below [INT_MAX], so
    that the loop counter stays an [int]) [analog_lowpass] returns no
    zeros, gain 1 and exactly [N] poles, the poles [- exp (i pi m / (2 N))]
    for [m = -N+1, -N+3, ..., N-1] in this order: so in every arithmetic,
    with [exp], [cos] and [sin] as the library computes them.  The
    magnitude of a pole is 1 up to the error of the library's cosine and
    sine: when these are within [delta] of the exact functions, and
    [exp 0] is 1, every pole is within [2 delta] of the unit circle,
    whatever the rounding of the angle.  With the exact functions the pole
    for [m] is [(- cos (pi m / (2 N)), - sin (pi m / (2 N)))] and its
    magnitude is exactly 1. *)
Theorem analog_lowpass_prototype (N : Z) :
  (1 <= N < INT_MAX)%Z ->
  (forall (D : Type) (DD : Double D) (LM : Libm D),
     zeros (analog_lowpass (D := D) N) = [] /\
     gain (analog_lowpass (D := D) N) = d_of_Z 1 /\
     length (poles (analog_lowpass (D := D) N)) = Z.to_nat N /\
     poles (analog_lowpass (D := D) N) =
       map (fun j => prototype_pole N (- N + 1 + 2 * Z.of_nat j)) (seq 0 (Z.to_nat N))) /\
  (forall (LM : Libm R) (delta : R),
     d_exp (d_of_Z 0) = 1 ->
     (forall x, Rabs (d_cos x - cos x) <= delta) ->
     (forall x, Rabs (d_sin x - sin x) <= delta) ->
     Forall (fun p => Rabs (c_abs p - 1) <= 2 * delta)
            (poles (analog_lowpass (D := R) (LM := LM) N))) /\
  (forall m : Z,
     prototype_pole (D := R) N m =
       Cplx (- cos (Rtrigo1.PI * IZR m / (2 * IZR N)))
            (- sin (Rtrigo1.PI * IZR m / (2 * IZR N)))) /\
  Forall on_unit_circle (poles (analog_lowpass (D := R) N)).
Proof.
  intros HN. split; [|split; [|split]].
  - intros D DD LM.
    destruct (analog_lowpass_shape (D := D) N) as [Hz [Hg [Hp Hl]]]; [lia|].
    repeat split; assumption.
  - intros LM delta He Hc Hs.
    destruct (analog_lowpass_shape (D := R) (LM := LM) N) as [_ [_ [Hp _]]]; [lia|].
    rewrite Hp. apply Forall_forall. intros p Hin.
    apply in_map_iff in Hin. destruct Hin as [j [<- _]].
    unfold prototype_pole, c_exp, c_neg, c_abs.
    cbn [re im d_add d_mul d_neg d_sqrt Double_R]. rewrite He.
    set (theta := d_div (d_mul PI (d_of_Z (- N + 1 + 2 * Z.of_nat j)))
                        (d_mul (d_of_Z 2) (d_of_Z N))).
    replace (- (1 * d_cos theta) * - (1 * d_cos theta)
             + - (1 * d_sin theta) * - (1 * d_sin theta))
      with (d_cos theta * d_cos theta + d_sin theta * d_sin theta) by ring.
    apply (near_unit_circle (cos theta) (sin theta)); [|apply Hc | apply Hs].
    pose proof (sin2_cos2 theta) as H. unfold Rsqr in H. lra.
  - intro m. apply prototype_pole_R.
  - destruct (analog_lowpass_shape (D := R) N) as [_ [_ [Hp _]]]; [lia|].
    rewrite Hp. apply Forall_forall. intros p Hin.
    apply in_map_iff in Hin. destruct Hin as [j [<- _]].
    rewrite prototype_pole_R. apply unit_circle.
Qed.

Lemma zero_is_real_R : d_ltb (d_abs (d_of_Z 0)) (tol (D := R)) = true.
Proof.
  unfold tol. cbn [d_ltb d_abs d_of_Z d_mul d_epsilon Double_R]. unfold Rltb.
  rewrite Rabs_R0.
  destruct (Rlt_dec 0 (100 * / IZR (2 ^ 52))) as [_|H]; [reflexivity|].
  exfalso. apply H. apply Rmult_lt_0_compat; [lra|].
  apply Rinv_0_lt_compat. apply IZR_lt. reflexivity.
Qed.

(** Witness of C7. *)
Lemma analog_lowpass_prototype_witness :
  length (poles (analog_lowpass (D := R) 3)) = 3%nat /\
  Forall on_unit_circle (poles (analog_lowpass (D := R) 3)).
Proof.
  assert (H : (1 <= 3 < INT_MAX)%Z) by (vm_compute; split; [discriminate | reflexivity]).
  pose proof (analog_lowpass_prototype 3 H) as [Hshape [_ [_ Hunit]]].
  destruct (Hshape R _ _) as [_ [_ [Hlen _]]].
  split; [exact Hlen | exact Hunit].
Defined.


End Exact.

(** ** The claims on binary64 inputs *)

Section Binary64.

Local Open Scope float_scope.

(** Witness of C1. *)
Lemma zpk2sos_gain_in_first_section_witness :
  zpk2sos 1 two_sections =
    Ok [Biquad 5 2.5 1.5625 (-1) 0.3125; Biquad 1 (-1) 0.5 (-1.75) 0.78125] /\
  exists secs,
    zpk2sos_sections 1 two_sections = Ok secs /\
    Forall2 (fun s b => zpk2tf s = Ok b) secs
      [Biquad 5 2.5 1.5625 (-1) 0.3125; Biquad 1 (-1) 0.5 (-1.75) 0.78125] /\
    forall j s, nth_error secs j = Some s ->
      gain s = if (j =? 0)%nat then gain two_sections else d_of_Z 1.
Proof.
  split.
  - vm_compute. reflexivity.
  - apply (zpk2sos_gain_in_first_section 1 two_sections).
    vm_compute. reflexivity.
Defined.

(** C1 as stated fails: the cascade of [two_sections] has its gain 5 in the
    first section, and the last section has gain 1. *)
Lemma gain_not_in_last_section : ~ gain_in_last_section 1 two_sections.
Proof.
  intro H.
  assert (Hs : zpk2sos_sections 1 two_sections
               = Ok [two_sections_first; two_sections_second])
    by (vm_compute; reflexivity).
  specialize (H _ Hs 1%nat two_sections_second eq_refl).
  apply (f_equal (fun x => PrimFloat.eqb x 5)) in H.
  vm_compute in H. discriminate H.
Qed.

(** Zero is real within the tolerance on binary64, and a system with
    equally many zeros and poles is factored into sections that use up
    all of them. *)
Lemma zero_is_real_float : d_ltb (d_abs (d_of_Z 0)) (tol (D := float)) = true.
Proof. vm_compute. reflexivity. Qed.

Lemma two_sections_consumed :
  exists ps zs,
    preprocess 2 two_sections = Ok (2%nat, ps, zs) /\
    exists poles1 zeros1 poles_sos zeros_sos,
      canonicalize ps zs = Ok (poles1, zeros1) /\
      pair_loop 2 (poles1, zeros1, [], []) = Ok ([], [], poles_sos, zeros_sos).
Proof.
  destruct (zpk2sos_sections_consume_all zero_is_real_float 0 two_sections)
    as [H|[ps [zs [p1 [z1 [pss [zss [secs [Hpre [Hc [Hl _]]]]]]]]]]].
  - left. reflexivity.
  - vm_compute in H. discriminate H.
  - exists ps, zs. split; [exact Hpre|]. exists p1, z1, pss, zss. split; assumption.
Qed.

(** Witness of C3. *)
Lemma preprocess_unequal_runs_away_witness : ~ returns (preprocess 7 one_pole).
Proof.
  apply (preprocess_unequal_runs_away 7 one_pole).
  - vm_compute. reflexivity.
  - vm_compute. reflexivity.
  - left. vm_compute. lia.
Defined.

(** C5 as stated fails: a number with imaginary part [tol] is not "above
    the tolerance", yet [cplxpair] counts it as positive-imaginary and
    rejects the input for want of a partner. *)
Lemma cplxpair_boundary_rejected :
  ~ (cplxpair on_the_boundary = Throw no_conjugate <->
     unmatched (filter above_tol on_the_boundary) (filter below_neg_tol on_the_boundary)).
Proof.
  intros [H _].
  destruct H as [H|[a [Ha _]]].
  - vm_compute. reflexivity.
  - vm_compute in H. apply H. reflexivity.
  - vm_compute in Ha. exact Ha.
Qed.



(** Off the runs of [zpk2sos] the code and the specification part ways.
    With a complex front pole, exactly one real zero left and no real
    pole, the test of line 512 (which counts the real poles) fails and
    the pole gets the nearest zero of all, the real one, where the
    specification gives it the complex zero. *)
Remark pick_z1_off_the_runs :
  pick_z1 (fcplx 0.5 0.5) (count_real (tl lone_real_zero_poles)) lone_real_zero_zeros
    = Ok (fcplx 0.5 0, [fcplx (-0.5) 0.5]) /\
  pick_z1_documented (fcplx 0.5 0.5) lone_real_zero_zeros
    = Ok (fcplx (-0.5) 0.5, [fcplx 0.5 0]).
Proof. split; vm_compute; reflexivity. Qed.

(** And with a pole left over the assertion of line 578 stops the run
    where the specification has a logic error. *)
Remark finish_off_the_runs :
  finish zpk2tf 1 1 one_pole_left = Abort /\
  finish_documented "leftovers"%string zpk2tf 1 1 one_pole_left
    = Throw (logic_error "leftovers"%string).
Proof. split; vm_compute; reflexivity. Qed.

(** C7 as stated fails: on binary64 the seventh pole of order 9 (the pole
    for [m = 4]) is [order_9_pole], and its magnitude is not 1.  The sum
    of the squares of its parts is below [(1 - 2^-54)^2], so that the
    binary64 number nearest to its magnitude is the one below 1, which is
    also what [std::abs] computes to. *)
Lemma order_9_pole_off_unit_circle :
  nth_error (poles (analog_lowpass (D := float) (LM := libm_order_9) 9)) 6
    = Some order_9_pole /\
  c_abs order_9_pole = 0x1.fffffffffffffp-1 /\
  (times_2_53 (re order_9_pole) ^ 2 + times_2_53 (im order_9_pole) ^ 2 + 2 ^ 53
   <= 2 ^ 106)%Z /\
  ~ Forall on_unit_circle (poles (analog_lowpass (D := float) (LM := libm_order_9) 9)).
Proof.
  assert (Hn : nth_error (poles (analog_lowpass (D := float) (LM := libm_order_9) 9)) 6
               = Some order_9_pole) by (vm_compute; reflexivity).
  split; [exact Hn|].
  split; [vm_compute; reflexivity|].
  split; [apply Z.leb_le; vm_compute; reflexivity|].
  intro H. rewrite Forall_forall in H.
  specialize (H order_9_pole (nth_error_In _ _ Hn)). unfold on_unit_circle in H.
  apply (f_equal (fun x => PrimFloat.eqb x 1)) in H.
  vm_compute in H. discriminate H.
Qed.

(** C6 (failing input): [cplxpair] accepts [unbalanced], each [1+i]
    finding the one [1-i]; [2-i] is dropped, and nothing in the
    recombined output is within the tolerance of it. *)
Theorem cplxpair_accepts_unbalanced :
  cplxpair unbalanced = Ok ([], [fcplx 1 1; fcplx 1 1]) /\
  In (fcplx 2 (-1)) unbalanced /\
  recombine ([], [fcplx 1 1; fcplx 1 1])
    = [fcplx 1 1; fcplx 1 1; fcplx 1 (-1); fcplx 1 (-1)] /\
  forallb (fun r => negb (within_tol r (fcplx 2 (-1))))
          (recombine ([], [fcplx 1 1; fcplx 1 1])) = true.
Proof.
  split; [vm_compute; reflexivity|].
  split; [cbn; tauto|].
  split; vm_compute; reflexivity.
Qed.

End Binary64.

(** * The rest of the design pipeline *)

(** ** The frequency transforms, in every arithmetic *)

Section Transform_Proofs.

Context {D : Type} {DD : Double D} {CM : Cmath D}.

Lemma degree_of_small (sys : zpk D) :
  Z.of_nat (length (zeros sys)) < 2 ^ 31 ->
  Z.of_nat (length (poles sys)) < 2 ^ 31 ->
  degree_of sys = Z.of_nat (length (poles sys)) - Z.of_nat (length (zeros sys)).
Proof. intros Hz Hp. apply degree_of_lengths; assumption. Qed.

(** The number of zeros a transform appends for the zeros at infinity. *)
Lemma excess_poles (sys : zpk D) :
  Z.to_nat (Z.of_nat (length (poles sys)) - Z.of_nat (length (zeros sys)))
  = (length (poles sys) - length (zeros sys))%nat.
Proof. lia. Qed.

(** The loops of the transforms as maps. *)
Lemma lp2lp_arrays_map (sys : zpk D) (wc : D) :
  zeros (lp2lp sys wc) = map (d_times_c wc) (zeros sys) /\
  poles (lp2lp sys wc) = map (d_times_c wc) (poles sys).
Proof. unfold lp2lp. cbn [zeros poles]. rewrite !fold_left_push. split; reflexivity. Qed.

Lemma lp2hp_arrays_map (sys : zpk D) (wc : D) :
  Z.of_nat (length (zeros sys)) < 2 ^ 31 ->
  Z.of_nat (length (poles sys)) < 2 ^ 31 ->
  zeros (lp2hp sys wc) =
    map (d_over_c wc) (zeros sys)
    ++ repeat (c_of_int 0) (length (poles sys) - length (zeros sys)) /\
  poles (lp2hp sys wc) = map (d_over_c wc) (poles sys).
Proof.
  intros Hz Hp. unfold lp2hp. cbn [zeros poles].
  rewrite degree_of_small by assumption.
  rewrite !fold_left_push, push_n_repeat, excess_poles. split; reflexivity.
Qed.

(** The counts of zeros and of poles after each transform. *)
Lemma transform_lengths (sys : zpk D) (w1 w2 : D) :
  Z.of_nat (length (zeros sys)) < 2 ^ 31 ->
  Z.of_nat (length (poles sys)) < 2 ^ 31 ->
  let nz := length (zeros sys) in
  let np := length (poles sys) in
  (length (zeros (lp2lp sys w1)) = nz /\ length (poles (lp2lp sys w1)) = np) /\
  (length (zeros (lp2hp sys w1)) = Nat.max nz np /\ length (poles (lp2hp sys w1)) = np) /\
  (length (zeros (lp2bp sys w1 w2)) = (nz + Nat.max nz np)%nat /\
   length (poles (lp2bp sys w1 w2)) = (2 * np)%nat) /\
  (length (zeros (lp2bs sys w1 w2)) = (2 * Nat.max nz np)%nat /\
   length (poles (lp2bs sys w1 w2)) = (2 * np)%nat).
Proof.
  intros Hz Hp nz np. subst nz np.
  split; [|split; [|split]].
  - destruct (lp2lp_arrays_map sys w1) as [-> ->]. rewrite !length_map. split; reflexivity.
  - destruct (lp2hp_arrays_map sys w1 Hz Hp) as [-> ->].
    rewrite length_app, !length_map, repeat_length. split; lia.
  - unfold lp2bp. cbn [zeros poles]. rewrite degree_of_small by assumption.
    rewrite !fold_left_push, push_n_repeat, excess_poles.
    rewrite !length_app, !length_map, repeat_length. cbn [length]. split; lia.
  - unfold lp2bs. cbn [zeros poles]. rewrite degree_of_small by assumption.
    rewrite !fold_left_push, !push_n_repeat, excess_poles.
    rewrite !length_app, !length_map, !repeat_length. cbn [length]. split; lia.
Qed.

(** X1: [lp2lp] multiplies every zero and every pole by the cutoff, in
    order, so that both counts stay, and multiplies the gain by the
    cutoff to the power [|poles| - |zeros|]. *)
Theorem lp2lp_spec (sys : zpk D) (wc : D) :
  Z.of_nat (length (zeros sys)) < 2 ^ 31 ->
  Z.of_nat (length (poles sys)) < 2 ^ 31 ->
  lp2lp sys wc =
  Zpk (map (d_times_c wc) (zeros sys)) (map (d_times_c wc) (poles sys))
      (d_mul (gain sys)
             (d_pow wc (Z.of_nat (length (poles sys)) - Z.of_nat (length (zeros sys))))).
Proof.
  intros Hz Hp. unfold lp2lp.
  rewrite degree_of_small by assumption.
  rewrite !fold_left_push. reflexivity.
Qed.

(** X2: [lp2hp] replaces every zero and every pole [x] by [cutoff / x], in
    order, and appends a zero at the origin for every pole in excess of
    the zeros: the result has the poles' count of poles and the larger
    of the two counts of zeros. *)
Theorem lp2hp_arrays (sys : zpk D) (wc : D) :
  Z.of_nat (length (zeros sys)) < 2 ^ 31 ->
  Z.of_nat (length (poles sys)) < 2 ^ 31 ->
  zeros (lp2hp sys wc) =
    map (d_over_c wc) (zeros sys)
    ++ repeat (c_of_int 0) (length (poles sys) - length (zeros sys)) /\
  poles (lp2hp sys wc) = map (d_over_c wc) (poles sys) /\
  length (zeros (lp2hp sys wc)) = Nat.max (length (zeros sys)) (length (poles sys)) /\
  length (poles (lp2hp sys wc)) = length (poles sys).
Proof.
  intros Hz Hp. unfold lp2hp. cbn [zeros poles].
  rewrite degree_of_small by assumption.
  rewrite !fold_left_push, push_n_repeat, excess_poles. cbn [app].
  repeat split.
  - rewrite length_app, length_map, repeat_length. lia.
  - apply length_map.
Qed.

(** X3: [lp2bp] turns every zero and every pole [x] into the two numbers
    [y + sqrt (y^2 - center^2)] and [y - sqrt (y^2 - center^2)] for
    [y = x * width / 2] (all the sums first, then all the differences),
    appends a zero at the origin for every pole in excess of the zeros,
    and multiplies the gain by the width to the power
    [|poles| - |zeros|]: the order of the filter doubles. *)
Theorem lp2bp_spec (sys : zpk D) (center width : D) :
  Z.of_nat (length (zeros sys)) < 2 ^ 31 ->
  Z.of_nat (length (poles sys)) < 2 ^ 31 ->
  let y (x : complex D) := d_times_c (d_div width (d_of_Z 2)) x in
  lp2bp sys center width =
  Zpk (map (fun x => band_plus center (y x)) (zeros sys)
       ++ map (fun x => band_minus center (y x)) (zeros sys)
       ++ repeat (c_of_int 0) (length (poles sys) - length (zeros sys)))
      (map (fun x => band_plus center (y x)) (poles sys)
       ++ map (fun x => band_minus center (y x)) (poles sys))
      (d_mul (gain sys)
             (d_pow width (Z.of_nat (length (poles sys)) - Z.of_nat (length (zeros sys)))))
  /\ length (poles (lp2bp sys center width)) = (2 * length (poles sys))%nat
  /\ length (zeros (lp2bp sys center width))
     = (length (zeros sys) + Nat.max (length (zeros sys)) (length (poles sys)))%nat.
Proof.
  intros Hz Hp y.
  assert (E : lp2bp sys center width =
    Zpk (map (fun x => band_plus center (y x)) (zeros sys)
         ++ map (fun x => band_minus center (y x)) (zeros sys)
         ++ repeat (c_of_int 0) (length (poles sys) - length (zeros sys)))
        (map (fun x => band_plus center (y x)) (poles sys)
         ++ map (fun x => band_minus center (y x)) (poles sys))
        (d_mul (gain sys)
           (d_pow width (Z.of_nat (length (poles sys)) - Z.of_nat (length (zeros sys)))))).
  { unfold lp2bp. rewrite degree_of_small by assumption.
    rewrite !fold_left_push, push_n_repeat, excess_poles. cbn [app].
    rewrite <- app_assoc. reflexivity. }
  rewrite E. cbn [zeros poles]. split; [reflexivity|].
  rewrite !length_app, !length_map, repeat_length. split; lia.
Qed.

(** X4: [lp2bs] turns every zero and every pole [x] into the two numbers
    [y + sqrt (y^2 - center^2)] and [y - sqrt (y^2 - center^2)] for
    [y = (width / 2) / x], and for every pole in excess of the zeros
    appends one zero at [i center] and one at [-i center]: the result has
    twice the poles, and zeros to twice the larger of the two counts. *)
Theorem lp2bs_arrays (sys : zpk D) (center width : D) :
  Z.of_nat (length (zeros sys)) < 2 ^ 31 ->
  Z.of_nat (length (poles sys)) < 2 ^ 31 ->
  let y (x : complex D) := d_over_c (d_div width (d_of_Z 2)) x in
  zeros (lp2bs sys center width) =
    map (fun x => band_plus center (y x)) (zeros sys)
    ++ map (fun x => band_minus center (y x)) (zeros sys)
    ++ repeat (Cplx (d_of_Z 0) center) (length (poles sys) - length (zeros sys))
    ++ repeat (Cplx (d_of_Z 0) (d_neg center)) (length (poles sys) - length (zeros sys)) /\
  poles (lp2bs sys center width) =
    map (fun x => band_plus center (y x)) (poles sys)
    ++ map (fun x => band_minus center (y x)) (poles sys) /\
  length (poles (lp2bs sys center width)) = (2 * length (poles sys))%nat /\
  length (zeros (lp2bs sys center width))
  = (2 * Nat.max (length (zeros sys)) (length (poles sys)))%nat.
Proof.
  intros Hz Hp y. unfold lp2bs. cbn [zeros poles].
  rewrite degree_of_small by assumption.
  rewrite !fold_left_push, !push_n_repeat, excess_poles. cbn [app].
  rewrite <- !app_assoc.
  split; [reflexivity|]. split; [reflexivity|].
  rewrite !length_app, !length_map, !repeat_length. split; lia.
Qed.

End Transform_Proofs.

(** ** What zpk2sos returns, in every arithmetic *)

Section Cascade_Proofs.

Context {D : Type} {DD : Double D}.

Lemma emit_loop_length {B : Type} (build : zpk D -> outcome B) (n : nat) (k : D)
    (zeros_sos poles_sos : list (list (complex D))) (s1 : nat) (sos : list B) :
  emit_loop build n k zeros_sos poles_sos s1 [] = Ok sos -> length sos = s1.
Proof.
  intro H.
  destruct (emit_loop_sections build n k zeros_sos poles_sos s1 [] [] sos
              (Forall2_nil _) H) as [secs [Hs Hf]].
  apply emit_loop_gains in Hs. destruct Hs as [new [-> [Hl _]]].
  rewrite <- (Forall2_length Hf). cbn [app]. exact Hl.
Qed.

(** With one zero more than poles a single round of fuel does not get the
    first padding loop through. *)
Lemma preprocess_one_round_short (sys : zpk D) :
  length (zeros sys) = S (length (poles sys)) ->
  preprocess 1 sys = OutOfFuel.
Proof.
  intro E. unfold preprocess. cbn [pad_loop]. unfold size_t_sub.
  replace (Z.of_nat (length (zeros sys)) - Z.of_nat (length (poles sys))) with 1 by lia.
  reflexivity.
Qed.

(** When the preprocessing returns, the zeros are as many as the poles
    or one more, and the number of sections is half their count, rounded
    up. *)
Lemma preprocess_Ok_inv (fuel : nat) (sys : zpk D) (n : nat) (ps zs : list (complex D)) :
  Z.of_nat (length (zeros sys)) < 2 ^ 62 ->
  Z.of_nat (length (poles sys)) < 2 ^ 62 ->
  preprocess fuel sys = Ok (n, ps, zs) ->
  (length (zeros sys) = length (poles sys) \/ length (zeros sys) = S (length (poles sys)))
  /\ n = ((length (zeros sys) + 1) / 2)%nat.
Proof.
  intros Hz Hp H.
  assert (Hc : length (zeros sys) = length (poles sys)
               \/ length (zeros sys) = S (length (poles sys))).
  { destruct (Nat.lt_ge_cases (length (zeros sys)) (length (poles sys))) as [Hlt|Hge].
    - exfalso. apply (preprocess_more_poles fuel sys Hlt Hp). eexists. exact H.
    - destruct (Nat.le_gt_cases (length (poles sys) + 2) (length (zeros sys))) as [Hm|Hm].
      + exfalso. apply (preprocess_more_zeros fuel sys Hm Hz). eexists. exact H.
      + lia. }
  split; [exact Hc|].
  destruct fuel as [|[|fuel]].
  - discriminate H.
  - destruct Hc as [E|E].
    + rewrite (preprocess_equal 0 sys E) in H.
      destruct (length (zeros sys) mod 2 =? 1)%nat; injection H as <- _ _; reflexivity.
    + rewrite (preprocess_one_round_short sys E) in H. discriminate H.
  - destruct (preprocess_returns fuel sys Hc) as [ps' [zs' [Hpre _]]].
    rewrite Hpre in H. injection H as <- _ _. reflexivity.
Qed.

(** X5: whenever [zpk2sos] returns a cascade, the input has as many zeros
    as poles or one zero more, and the cascade has
    [ceil (max (|zeros|, |poles|) / 2)] sections. *)
Theorem zpk2sos_Ok_sections (fuel : nat) (sys : zpk D) (sos : list (biquad D)) :
  Z.of_nat (length (zeros sys)) < 2 ^ 62 ->
  Z.of_nat (length (poles sys)) < 2 ^ 62 ->
  zpk2sos fuel sys = Ok sos ->
  (length (zeros sys) = length (poles sys) \/ length (zeros sys) = S (length (poles sys)))
  /\ length sos = ((Nat.max (length (zeros sys)) (length (poles sys)) + 1) / 2)%nat.
Proof.
  intros Hz Hp H. unfold zpk2sos, zpk2sos_with in H.
  bind_inv H. destruct a as [[n ps] zs].
  bind_inv H. destruct a as [poles1 zeros1].
  bind_inv H. destruct a as [[[poles2 zeros2] poles_sos] zeros_sos].
  unfold finish in H. bind_inv H.
  apply emit_loop_length in H.
  destruct (preprocess_Ok_inv fuel sys n ps zs Hz Hp Hstep) as [Hc Hn].
  split; [exact Hc|]. rewrite H, Hn.
  replace (Nat.max (length (zeros sys)) (length (poles sys))) with (length (zeros sys))
    by lia.
  reflexivity.
Qed.

End Cascade_Proofs.

(** ** The sections the pairing loop forms *)

Lemma erase_incl {A : Type} (v : list A) (i : nat) : incl (erase v i) v.
Proof.
  revert i. induction v as [|x v IH]; intros i y Hy.
  - destruct i; exact Hy.
  - destruct i as [|i]; cbn [erase] in Hy.
    + right. exact Hy.
    + destruct Hy as [->|Hy]; [left; reflexivity | right; exact (IH i y Hy)].
Qed.

Section Pair_Proofs.

Context {D : Type} {DD : Double D}.

Lemma reals_exact_incl (u v : list (complex D)) :
  incl u v -> reals_exact v -> reals_exact u.
Proof. intros Hi Hv z Hz. apply Hv, Hi, Hz. Qed.

Lemma section_pair_length (v : list (complex D)) : section_pair v -> length v = 2%nat.
Proof. intros [x [y [-> _]]]. reflexivity. Qed.

(** One round on balanced arrays whose real entries have imaginary part 0:
    the two poles of the new section are a conjugate pair or two such real
    numbers, and so are its two zeros. *)
Lemma pair_step_pairs (n : nat) (poles zeros : list (complex D)) :
  balanced (S n) poles -> balanced (S n) zeros ->
  reals_exact poles -> reals_exact zeros ->
  exists ps zs poles' zeros',
    pair_step poles zeros = Ok (ps, zs, poles', zeros') /\
    balanced n poles' /\ balanced n zeros' /\
    section_pair ps /\ section_pair zs /\
    incl poles' poles /\ incl zeros' zeros.
Proof.
  unfold balanced. intros Hp Hz Xp Xz.
  destruct poles as [|p1 rest].
  { unfold reals, nonreals in Hp. cbn [filter length] in Hp. lia. }
  destruct (erase_counts (p1 :: rest) 0 p1 eq_refl) as [Hpr Hpn].
  cbn [erase] in Hpr, Hpn.
  assert (Hzne : zeros <> []).
  { intros ->. unfold reals, nonreals in Hz. cbn [filter length] in Hz. lia. }
  destruct (min_element_valid (nearer_to p1) zeros Hzne) as [z1 Hz1].
  destruct (erase_counts zeros _ z1 Hz1) as [Hzr Hzn].
  assert (Iz1 : In z1 zeros) by (eapply nth_error_In; exact Hz1).
  assert (Irest : incl rest (p1 :: rest)) by (intros y Hy; right; exact Hy).
  pose proof (erase_incl zeros (min_element (nearer_to p1) zeros)) as Ie.
  cbn [pair_step]. rewrite count_real_reals. unfold pick_z1.
  destruct (is_real p1) eqn:Ep1; cbn [negb andb].
  - assert (X1 : im p1 = d_of_Z 0) by (apply Xp; [left; reflexivity | exact Ep1]).
    destruct (Nat.eqb_spec (reals rest) 0) as [E0|_]; [lia|].
    unfold at_ at 1. rewrite Hz1. cbn [bind].
    destruct (is_real z1) eqn:Ez1; cbn [negb].
    + destruct (find_if_valid is_real rest) as [p2 [Hp2 Hr2]];
        [apply reals_pos_In; lia|].
      rewrite Hp2, Hr2. cbn [assert bind].
      destruct (erase_counts rest _ p2 Hp2) as [Hrr Hrn]. rewrite Hr2 in Hrr, Hrn.
      destruct (pop_nearest_real_complex_ok (erase zeros (min_element (nearer_to p1) zeros))
                  p2 true) as [i [z2 [Hpop [Hnth Hr]]]];
        [apply reals_pos_In; lia|].
      rewrite Hpop. cbn [bind]. rewrite Hr. cbn [assert bind].
      destruct (erase_counts _ _ z2 Hnth) as [Her Hen]. rewrite Hr in Her, Hen.
      do 4 eexists. split; [reflexivity|].
      split; [lia|]. split; [lia|].
      split; [|split; [|split]].
      * exists p1, p2. split; [reflexivity|]. right. split; [exact X1|].
        apply Xp; [right; eapply nth_error_In; exact Hp2 | exact Hr2].
      * exists z1, z2. split; [reflexivity|]. right. split.
        -- apply Xz; assumption.
        -- apply Xz; [apply Ie; eapply nth_error_In; exact Hnth | exact Hr].
      * intros y Hy. right. exact (erase_incl _ _ y Hy).
      * intros y Hy. apply Ie. exact (erase_incl _ _ y Hy).
    + destruct (pop_nearest_real_complex_ok rest z1 true) as [i [p2 [Hpop [Hnth Hr]]]];
        [apply reals_pos_In; lia|].
      rewrite Hpop. cbn [bind]. rewrite Hr. cbn [assert bind].
      destruct (erase_counts _ _ p2 Hnth) as [Her Hen]. rewrite Hr in Her, Hen.
      do 4 eexists. split; [reflexivity|].
      split; [lia|]. split; [lia|].
      split; [|split; [|split]].
      * exists p1, p2. split; [reflexivity|]. right. split; [exact X1|].
        apply Xp; [right; eapply nth_error_In; exact Hnth | exact Hr].
      * exists z1, (c_conj z1). split; [reflexivity|]. left. reflexivity.
      * intros y Hy. right. exact (erase_incl _ _ y Hy).
      * exact Ie.
  - destruct (Nat.eqb_spec (reals rest) 1) as [E1|_]; [lia|].
    unfold at_ at 1. rewrite Hz1. cbn [bind].
    destruct (is_real z1) eqn:Ez1; cbn [negb].
    + destruct (pop_nearest_real_complex_ok (erase zeros (min_element (nearer_to p1) zeros))
                  p1 true) as [i [z2 [Hpop [Hnth Hr]]]];
        [apply reals_pos_In; lia|].
      rewrite Hpop. cbn [bind]. rewrite Hr. cbn [assert bind].
      destruct (erase_counts _ _ z2 Hnth) as [Her Hen]. rewrite Hr in Her, Hen.
      do 4 eexists. split; [reflexivity|].
      split; [lia|]. split; [lia|].
      split; [|split; [|split]].
      * exists p1, (c_conj p1). split; [reflexivity|]. left. reflexivity.
      * exists z1, z2. split; [reflexivity|]. right. split.
        -- apply Xz; assumption.
        -- apply Xz; [apply Ie; eapply nth_error_In; exact Hnth | exact Hr].
      * exact Irest.
      * intros y Hy. apply Ie. exact (erase_incl _ _ y Hy).
    + do 4 eexists. split; [reflexivity|].
      split; [lia|]. split; [lia|].
      split; [|split; [|split]].
      * exists p1, (c_conj p1). split; [reflexivity|]. left. reflexivity.
      * exists z1, (c_conj z1). split; [reflexivity|]. left. reflexivity.
      * exact Irest.
      * exact Ie.
Qed.

Lemma pair_loop_pairs (n : nat) :
  forall (poles zeros : list (complex D)) (poles_sos zeros_sos : list (list (complex D))),
    balanced n poles -> balanced n zeros ->
    reals_exact poles -> reals_exact zeros ->
    exists ps zs,
      pair_loop n (poles, zeros, poles_sos, zeros_sos)
        = Ok ([], [], poles_sos ++ ps, zeros_sos ++ zs) /\
      length ps = n /\ length zs = n /\
      Forall section_pair ps /\ Forall section_pair zs.
Proof.
  induction n as [|n IH]; intros poles zeros poles_sos zeros_sos Hp Hz Xp Xz;
    cbn [pair_loop].
  - apply balanced_0_nil in Hp, Hz. subst. exists [], [].
    rewrite !app_nil_r. repeat split; constructor.
  - destruct (pair_step_pairs n poles zeros Hp Hz Xp Xz)
      as [ps [zs [poles' [zeros' [Hstep [Hp' [Hz' [Sp [Sz [Ip Iz]]]]]]]]]].
    rewrite Hstep. cbn [bind].
    destruct (IH poles' zeros' (poles_sos ++ [ps]) (zeros_sos ++ [zs]) Hp' Hz'
                 (reals_exact_incl _ _ Ip Xp) (reals_exact_incl _ _ Iz Xz))
      as [pss [zss [Hloop [Hlp [Hlz [Fp Fz]]]]]].
    exists (ps :: pss), (zs :: zss). rewrite Hloop, <- !app_assoc.
    cbn [app length]. repeat split; try lia; constructor; assumption.
Qed.

(** What [cplxpair] returns as real has imaginary part 0. *)
Lemma cplxpair_reals_exact (z : list (complex D)) (out : list (complex D) * list (complex D)) :
  cplxpair z = Ok out -> reals_exact (fst out ++ snd out).
Proof.
  intro H. apply cplxpair_Ok_inv in H. destruct H as [-> _]. cbn [fst snd].
  intros x Hx Hr. apply in_app_or in Hx. destruct Hx as [Hx|Hx].
  - apply in_map_iff in Hx. destruct Hx as [c [<- _]]. reflexivity.
  - apply filter_In in Hx. destruct Hx as [_ Hx]. unfold positive_imag in Hx.
    rewrite Hr in Hx. discriminate Hx.
Qed.

Lemma canonicalize_reals_exact (ps zs poles1 zeros1 : list (complex D)) :
  canonicalize ps zs = Ok (poles1, zeros1) ->
  reals_exact poles1 /\ reals_exact zeros1.
Proof.
  intro H. unfold canonicalize in H.
  bind_inv H. bind_inv H. injection H as <- <-.
  apply cplxpair_reals_exact in Hstep, Hstep0. split; [|exact Hstep0].
  intros x Hx. apply Hstep.
  eapply Permutation_in; [apply sort_perm | exact Hx].
Qed.

End Pair_Proofs.

(** ** The outcomes of zpk2sos on arrays of matching length *)

Section Outcome_Proofs.

Context {D : Type} {DD : Double D}.

Lemma all_real_cases (a : list (complex D)) :
  all_real a = Ok tt \/ all_real a = Throw complex_coefficients.
Proof.
  induction a as [|x a IH]; cbn [all_real].
  - left. reflexivity.
  - destruct (is_real x); [exact IH | right; reflexivity].
Qed.

(** On two zeros and two poles [zpk2tf] returns the biquad or reports
    complex coefficients; it has no other way out. *)
Lemma zpk2tf_cases (s : zpk D) :
  length (zeros s) = 2%nat -> length (poles s) = 2%nat ->
  (exists b, zpk2tf s = Ok b) \/ zpk2tf s = Throw complex_coefficients.
Proof.
  destruct s as [zs ps g]. cbn [zeros poles]. intros Hz Hp.
  destruct zs as [|z0 [|z1 [|]]]; try discriminate Hz.
  destruct ps as [|p0 [|p1 [|]]]; try discriminate Hp.
  unfold zpk2tf. cbn [zeros poles gain at_ nth_error bind].
  destruct (all_real_cases [c_of_int 1; c_sub (c_neg p0) p1; c_mul p0 p1]) as [->| ->];
    cbn [bind]; [|right; reflexivity].
  destruct (all_real_cases [d_times_c g (c_of_int 1); d_times_c g (c_sub (c_neg z0) z1);
                            c_mul (d_times_c g z0) z1]) as [->| ->];
    cbn [bind]; [left; eexists; reflexivity | right; reflexivity].
Qed.

Lemma emit_loop_zpk2tf_cases (n : nat) (k : D)
    (zeros_sos poles_sos : list (list (complex D))) (s1 : nat) :
  forall acc : list (biquad D),
    (s1 <= length zeros_sos)%nat -> (s1 <= length poles_sos)%nat ->
    Forall section_pair zeros_sos -> Forall section_pair poles_sos ->
    (exists sos, emit_loop zpk2tf n k zeros_sos poles_sos s1 acc = Ok sos) \/
    emit_loop zpk2tf n k zeros_sos poles_sos s1 acc = Throw complex_coefficients.
Proof.
  induction s1 as [|s IH]; intros acc Hz Hp Fz Fp; cbn [emit_loop].
  - left. eexists. reflexivity.
  - unfold at_.
    destruct (nth_error zeros_sos s) as [zs|] eqn:Ez;
      [|apply nth_error_None in Ez; lia].
    destruct (nth_error poles_sos s) as [ps|] eqn:Ep;
      [|apply nth_error_None in Ep; lia].
    cbn [bind].
    assert (Lz : length zs = 2%nat).
    { apply section_pair_length. rewrite Forall_forall in Fz. apply Fz.
      eapply nth_error_In. exact Ez. }
    assert (Lp : length ps = 2%nat).
    { apply section_pair_length. rewrite Forall_forall in Fp. apply Fp.
      eapply nth_error_In. exact Ep. }
    destruct (zpk2tf_cases
                (Zpk zs ps (if Z.of_nat s =? Z.of_nat n - 1 then k else d_of_Z 1)) Lz Lp)
      as [[b ->]| ->]; cbn [bind]; [|right; reflexivity].
    apply IH; assumption || lia.
Qed.

Section With_Zero_Real.

Hypothesis zero_is_real : d_ltb (d_abs (d_of_Z 0)) (tol (D := D)) = true.

(** Up to the construction of the cascade: with as many zeros as poles, or
    one zero more, either [cplxpair] rejects an array or the pairing loop
    ends with nothing left over and with [n] sections, each of them
    conjugate pairs or pairs of real numbers with imaginary part 0. *)
Lemma zpk2sos_reaches_finish (fuel : nat) (sys : zpk D) :
  length (zeros sys) = length (poles sys) \/ length (zeros sys) = S (length (poles sys)) ->
  (forall (B : Type) (build : zpk D -> outcome B),
     zpk2sos_with build (S (S fuel)) sys = Throw no_conjugate) \/
  exists poles_sos zeros_sos,
    length poles_sos = ((length (zeros sys) + 1) / 2)%nat /\
    length zeros_sos = ((length (zeros sys) + 1) / 2)%nat /\
    Forall section_pair poles_sos /\ Forall section_pair zeros_sos /\
    forall (B : Type) (build : zpk D -> outcome B),
      zpk2sos_with build (S (S fuel)) sys =
      emit_loop build ((length (zeros sys) + 1) / 2) (gain sys) zeros_sos poles_sos
                ((length (zeros sys) + 1) / 2) [].
Proof.
  intro H.
  destruct (preprocess_returns fuel sys H) as [ps [zs [Hpre [Hlp Hlz]]]].
  destruct (canonicalize_cases ps zs) as [Hc|[poles1 [zeros1 Hc]]].
  - left. intros B build. unfold zpk2sos_with. rewrite Hpre. cbn [bind].
    rewrite Hc. reflexivity.
  - right.
    destruct (canonicalize_balanced zero_is_real _ _ _ _ _ Hlp Hlz Hc) as [Bp Bz].
    destruct (canonicalize_reals_exact _ _ _ _ Hc) as [Xp Xz].
    destruct (pair_loop_pairs _ poles1 zeros1 [] [] Bp Bz Xp Xz)
      as [pss [zss [Hloop [Hl1 [Hl2 [Fp Fz]]]]]].
    cbn [app] in Hloop.
    exists pss, zss. repeat split; try assumption.
    intros B build. unfold zpk2sos_with. rewrite Hpre. cbn [bind].
    rewrite Hc. cbn [bind]. rewrite Hloop. reflexivity.
Qed.

Lemma zpk2sos_cascade_or_error (fuel : nat) (sys : zpk D) :
  length (zeros sys) = length (poles sys) \/ length (zeros sys) = S (length (poles sys)) ->
  cascade_or_error ((length (zeros sys) + 1) / 2) (zpk2sos (S (S fuel)) sys).
Proof.
  intro H. unfold cascade_or_error, zpk2sos.
  destruct (zpk2sos_reaches_finish fuel sys H)
    as [Hn|[pss [zss [Hl1 [Hl2 [Fp [Fz He]]]]]]].
  - left. apply Hn.
  - right. rewrite He.
    destruct (emit_loop_zpk2tf_cases ((length (zeros sys) + 1) / 2) (gain sys) zss pss
                ((length (zeros sys) + 1) / 2) []) as [[sos Hs]|Ht];
      try assumption; try lia.
    + right. exists sos. split; [exact Hs|]. apply emit_loop_length in Hs. exact Hs.
    + left. exact Ht.
Qed.

(** X6: with as many zeros as poles, or one zero more, [zpk2sos] has three
    ways out only: the cascade of [ceil (|zeros| / 2)] sections, the
    invalid-argument error of [cplxpair], or the logic error of
    [zpk2tf].  None of its assertions fails, no index is out of range,
    and no empty array is read. *)
Theorem zpk2sos_outcomes (fuel : nat) (sys : zpk D) :
  length (zeros sys) = length (poles sys) \/ length (zeros sys) = S (length (poles sys)) ->
  zpk2sos (S (S fuel)) sys = Throw no_conjugate \/
  zpk2sos (S (S fuel)) sys = Throw complex_coefficients \/
  exists sos,
    zpk2sos (S (S fuel)) sys = Ok sos /\
    length sos = ((length (zeros sys) + 1) / 2)%nat.
Proof.
  intro H. unfold zpk2sos.
  destruct (zpk2sos_reaches_finish fuel sys H)
    as [Hn|[pss [zss [Hl1 [Hl2 [Fp [Fz He]]]]]]].
  - left. apply Hn.
  - right. rewrite He.
    destruct (emit_loop_zpk2tf_cases ((length (zeros sys) + 1) / 2) (gain sys) zss pss
                ((length (zeros sys) + 1) / 2) []) as [[sos Hs]|Ht];
      try assumption; try lia.
    + right. exists sos. split; [exact Hs|]. apply emit_loop_length in Hs. exact Hs.
    + left. exact Ht.
Qed.

End With_Zero_Real.

End Outcome_Proofs.

(** ** More on cplxpair, in every arithmetic *)

Lemma filter_all {A : Type} (f : A -> bool) (v : list A) :
  (forall x, In x v -> f x = true) -> filter f v = v.
Proof.
  induction v as [|x v IH]; intro H; cbn [filter]; [reflexivity|].
  rewrite (H x (or_introl eq_refl)), IH; [reflexivity|].
  intros y Hy. apply H. right. exact Hy.
Qed.

Lemma filter_none {A : Type} (f : A -> bool) (v : list A) :
  (forall x, In x v -> f x = false) -> filter f v = [].
Proof.
  induction v as [|x v IH]; intro H; cbn [filter]; [reflexivity|].
  rewrite (H x (or_introl eq_refl)), IH; [reflexivity|].
  intros y Hy. apply H. right. exact Hy.
Qed.

Section Cplxpair_More.

Context {D : Type} {DD : Double D}.

(** X7: what [cplxpair] returns accounts for the whole input: every
    representative stands for two input numbers, itself and a
    negative-imaginary one within the tolerance of its conjugate, and
    every returned real is the real part of a real input number, with
    imaginary part 0. *)
Theorem cplxpair_Ok_accounts (z z_r z_ip : list (complex D)) :
  cplxpair z = Ok (z_r, z_ip) ->
  (length z_r + 2 * length z_ip = length z)%nat /\
  (forall x, In x z_r ->
     exists c, In c z /\ is_real c = true /\ x = Cplx (re c) (d_of_Z 0)) /\
  (forall a, In a z_ip ->
     In a z /\ positive_imag a = true /\
     exists b, In b z /\ negative_imag b = true /\ within_tol a (c_conj b) = true).
Proof.
  intro H.
  assert (Hnt : cplxpair z <> Throw no_conjugate) by (rewrite H; discriminate).
  pose proof (sort_perm complex_comparator z) as Hs.
  destruct (cplxpair_Ok_inv z _ H) as [E Hlen]. injection E as -> ->.
  split; [|split].
  - rewrite length_map.
    pose proof (three_classes (sort complex_comparator z)) as T.
    rewrite (Permutation_length Hs) in T. lia.
  - intros x Hx. apply in_map_iff in Hx. destruct Hx as [c [<- Hc]].
    apply filter_In in Hc. destruct Hc as [Hc Hr].
    exists c. split; [eapply Permutation_in; eassumption|]. split; [exact Hr | reflexivity].
  - intros a Ha. apply filter_In in Ha. destruct Ha as [Ha Hpos].
    split; [eapply Permutation_in; eassumption|]. split; [exact Hpos|].
    destruct (existsb (fun b => within_tol a (c_conj b))
                      (filter negative_imag (sort complex_comparator z))) eqn:Ex.
    + apply existsb_exists in Ex. destruct Ex as [b [Hb Hw]].
      apply filter_In in Hb. destruct Hb as [Hb Hneg].
      exists b. split; [eapply Permutation_in; eassumption|]. split; assumption.
    + exfalso. apply Hnt. apply cplxpair_throws_sorted. right.
      exists a. split; [apply filter_In; split; assumption|].
      apply found_conj_false. rewrite found_conj_spec. exact Ex.
Qed.

(** X8: whether [cplxpair] accepts an array does not depend on the order
    of its entries, and what it returns for two orders of the same
    entries are the same numbers, up to order. *)
Theorem cplxpair_order_independent (z z' : list (complex D)) :
  Permutation z z' ->
  (cplxpair z = Throw no_conjugate <-> cplxpair z' = Throw no_conjugate) /\
  (forall out out', cplxpair z = Ok out -> cplxpair z' = Ok out' ->
     Permutation (fst out) (fst out') /\ Permutation (snd out) (snd out')).
Proof.
  intro P. split.
  - pose proof (cplxpair_throws_sorted z) as H. cbv zeta in H. rewrite H.
    pose proof (cplxpair_throws_sorted z') as H'. cbv zeta in H'. rewrite H'.
    assert (Q : Permutation (sort complex_comparator z) (sort complex_comparator z')).
    { eapply perm_trans; [apply sort_perm|].
      eapply perm_trans; [exact P | apply Permutation_sym, sort_perm]. }
    split; apply unmatched_perm;
      try (apply filter_perm; exact Q);
      apply Permutation_sym, filter_perm; exact Q.
  - intros out out' H H'.
    apply cplxpair_Ok_inv in H, H'. destruct H as [-> _], H' as [-> _]. cbn [fst snd].
    assert (Q : Permutation (sort complex_comparator z) (sort complex_comparator z')).
    { eapply perm_trans; [apply sort_perm|].
      eapply perm_trans; [exact P | apply Permutation_sym, sort_perm]. }
    split; [apply Permutation_map|]; apply filter_perm; exact Q.
Qed.

(** No array of numbers that are all real within the tolerance is
    rejected. *)
Lemma cplxpair_reals_returns (z : list (complex D)) :
  (forall c, In c z -> is_real c = true) -> returns (cplxpair z).
Proof.
  intro H. unfold returns.
  destruct (cplxpair_fails_or_returns z) as [Ht|Hr]; [exfalso | exact Hr].
  pose proof (cplxpair_throws_sorted z) as T. cbv zeta in T. apply T in Ht.
  assert (Hs : forall c, In c (sort complex_comparator z) -> is_real c = true).
  { intros c Hc. apply H. eapply Permutation_in; [apply sort_perm | exact Hc]. }
  destruct Ht as [Hlen|[a [Ha _]]].
  - apply Hlen. rewrite (filter_none positive_imag), (filter_none negative_imag).
    + reflexivity.
    + intros c Hc. unfold negative_imag. rewrite (Hs c Hc). reflexivity.
    + intros c Hc. unfold positive_imag. rewrite (Hs c Hc). reflexivity.
  - apply filter_In in Ha. destruct Ha as [Ha Hpos].
    unfold positive_imag in Hpos. rewrite (Hs a Ha) in Hpos. discriminate Hpos.
Qed.

(** X9: an array of numbers that are all real within the tolerance is
    always accepted: [cplxpair] returns their real parts, sorted, and no
    representative. *)
Theorem cplxpair_all_real (z : list (complex D)) :
  (forall c, In c z -> is_real c = true) ->
  cplxpair z =
  Ok (map (fun c => Cplx (re c) (d_of_Z 0)) (sort complex_comparator z), []).
Proof.
  intro H.
  assert (Hs : forall c, In c (sort complex_comparator z) -> is_real c = true).
  { intros c Hc. apply H. eapply Permutation_in; [apply sort_perm | exact Hc]. }
  pose proof (cplxpair_unfold z) as U. cbv zeta in U. rewrite U.
  rewrite (filter_all is_real _ Hs).
  rewrite (filter_none positive_imag), (filter_none negative_imag).
  - reflexivity.
  - intros c Hc. unfold negative_imag. rewrite (Hs c Hc). reflexivity.
  - intros c Hc. unfold positive_imag. rewrite (Hs c Hc). reflexivity.
Qed.

End Cplxpair_More.

(** ** From the analog system to the input of zpk2sos *)

Section Pipeline_Proofs.

Context {D : Type} {DD : Double D}.

Lemma bilinear_transform_lengths (sys : zpk D) (fs : D) :
  Z.of_nat (length (zeros sys)) < 2 ^ 31 ->
  Z.of_nat (length (poles sys)) < 2 ^ 31 ->
  length (zeros (bilinear_transform sys fs))
  = Nat.max (length (zeros sys)) (length (poles sys)) /\
  length (poles (bilinear_transform sys fs)) = length (poles sys).
Proof.
  intros Hz Hp.
  destruct (bilinear_transform_arrays sys fs Hz Hp) as [-> ->].
  rewrite length_app, !length_map, repeat_length. split; lia.
Qed.

(** X10: the bilinear transform of a system with no more zeros than poles
    has as many zeros as poles, and the preprocessing of [zpk2sos] gets
    through on it: it plans [ceil (|poles| / 2)] sections. *)
Theorem bilinear_transform_feeds_zpk2sos (fuel : nat) (sys : zpk D) (fs : D) :
  (length (zeros sys) <= length (poles sys))%nat ->
  Z.of_nat (length (poles sys)) < 2 ^ 31 ->
  length (zeros (bilinear_transform sys fs)) = length (poles sys) /\
  length (poles (bilinear_transform sys fs)) = length (poles sys) /\
  exists ps zs,
    preprocess (S (S fuel)) (bilinear_transform sys fs)
    = Ok (((length (poles sys) + 1) / 2)%nat, ps, zs).
Proof.
  intros Hle Hp.
  destruct (bilinear_transform_lengths sys fs) as [Lz Lp]; [lia | lia |].
  rewrite Lz, Lp. split; [lia|]. split; [reflexivity|].
  destruct (preprocess_returns fuel (bilinear_transform sys fs)) as [ps [zs [H _]]].
  - left. rewrite Lz, Lp. lia.
  - exists ps, zs. rewrite H, Lz.
    replace (Nat.max (length (zeros sys)) (length (poles sys))) with (length (poles sys))
      by lia.
    reflexivity.
Qed.

(** X11: the bilinear transform keeps an excess of zeros, and with two or
    more zeros in excess [zpk2sos] returns no cascade for its result. *)
Theorem bilinear_transform_excess_zeros (fuel : nat) (sys : zpk D) (fs : D) :
  (length (poles sys) + 2 <= length (zeros sys))%nat ->
  Z.of_nat (length (zeros sys)) < 2 ^ 31 ->
  length (zeros (bilinear_transform sys fs)) = length (zeros sys) /\
  length (poles (bilinear_transform sys fs)) = length (poles sys) /\
  ~ returns (zpk2sos fuel (bilinear_transform sys fs)).
Proof.
  intros Hex Hz.
  destruct (bilinear_transform_lengths sys fs) as [Lz Lp]; [lia | lia |].
  split; [lia|]. split; [exact Lp|].
  unfold zpk2sos, zpk2sos_with.
  apply not_returns_bind, preprocess_more_zeros; lia.
Qed.

Context {CM : Cmath D}.

(** X12: for an analog prototype with no more zeros than poles, each of the
    four designs reaches [zpk2sos] with as many zeros as poles after the
    bilinear transform: the prototype's count of poles for low-pass and
    high-pass, twice that for band-pass and band-stop. *)
Theorem designs_have_matching_counts (sys : zpk D) (w1 w2 fs : D) :
  (length (zeros sys) <= length (poles sys))%nat ->
  Z.of_nat (2 * length (poles sys)) < 2 ^ 31 ->
  let N := length (poles sys) in
  let counts (d : zpk D) := (length (zeros d), length (poles d)) in
  counts (bilinear_transform (lp2lp sys w1) fs) = (N, N) /\
  counts (bilinear_transform (lp2hp sys w1) fs) = (N, N) /\
  counts (bilinear_transform (lp2bp sys w1 w2) fs) = ((2 * N)%nat, (2 * N)%nat) /\
  counts (bilinear_transform (lp2bs sys w1 w2) fs) = ((2 * N)%nat, (2 * N)%nat).
Proof.
  intros Hle Hp N counts. subst counts N. cbv beta.
  assert (Hz' : Z.of_nat (length (zeros sys)) < 2 ^ 31) by lia.
  assert (Hp' : Z.of_nat (length (poles sys)) < 2 ^ 31) by lia.
  destruct (transform_lengths sys w1 w2 Hz' Hp')
    as [[Lz1 Lp1] [[Lz2 Lp2] [[Lz3 Lp3] [Lz4 Lp4]]]].
  cbv zeta in Lz1, Lp1, Lz2, Lp2, Lz3, Lp3, Lz4, Lp4.
  repeat split.
  - destruct (bilinear_transform_lengths (lp2lp sys w1) fs) as [Lz Lp]; try lia.
    rewrite Lz, Lp, Lz1, Lp1. f_equal. lia.
  - destruct (bilinear_transform_lengths (lp2hp sys w1) fs) as [Lz Lp]; try lia.
    rewrite Lz, Lp, Lz2, Lp2. f_equal. lia.
  - destruct (bilinear_transform_lengths (lp2bp sys w1 w2) fs) as [Lz Lp]; try lia.
    rewrite Lz, Lp, Lz3, Lp3. f_equal. lia.
  - destruct (bilinear_transform_lengths (lp2bs sys w1 w2) fs) as [Lz Lp]; try lia.
    rewrite Lz, Lp, Lz4, Lp4. f_equal. lia.
Qed.

End Pipeline_Proofs.

(** ** The ways out of a design, in every arithmetic *)

Section Design_Outcomes.

Context {D : Type} {DD : Double D} {LM : Libm D} {CM : Cmath D}.

Hypothesis zero_is_real : d_ltb (d_abs (d_of_Z 0)) (tol (D := D)) = true.

(** The bilinear transform of a system with no more zeros than poles,
    handed to [zpk2sos]. *)
Lemma bilinear_cascade_or_error (fuel : nat) (d : zpk D) (fs : D) (n : nat) :
  length (poles d) = n -> (length (zeros d) <= n)%nat -> Z.of_nat n < 2 ^ 31 ->
  cascade_or_error ((n + 1) / 2) (zpk2sos (S (S fuel)) (bilinear_transform d fs)).
Proof.
  intros Hn Hle Hb.
  destruct (bilinear_transform_lengths d fs) as [Lz Lp]; [lia | lia |].
  replace n with (length (zeros (bilinear_transform d fs))) by lia.
  apply (zpk2sos_cascade_or_error zero_is_real). left. lia.
Qed.

(** X20: whatever the arithmetic, the cutoffs and the sampling frequency,
    each of the four designs of an analog prototype with no more zeros
    than poles ends in one of three ways: a cascade, the invalid-argument
    error of [cplxpair], or the logic error of [zpk2tf].  The cascade has
    [ceil (|poles| / 2)] biquads for low-pass and high-pass and [|poles|]
    biquads for band-pass and band-stop.  No assertion fails, no index is
    out of range, and the padding loops of [zpk2sos] do not run away. *)
Theorem designs_outcomes (fuel : nat) (sys : zpk D) (w1 w2 fs : D) :
  (length (zeros sys) <= length (poles sys))%nat ->
  Z.of_nat (2 * length (poles sys)) < 2 ^ 31 ->
  let N := length (poles sys) in
  let design (d : zpk D) := zpk2sos (S (S fuel)) (bilinear_transform d fs) in
  cascade_or_error ((N + 1) / 2) (design (lp2lp sys w1)) /\
  cascade_or_error ((N + 1) / 2) (design (lp2hp sys w1)) /\
  cascade_or_error N (design (lp2bp sys w1 w2)) /\
  cascade_or_error N (design (lp2bs sys w1 w2)).
Proof.
  intros Hle Hb N design. subst N design. cbv beta.
  destruct (transform_lengths sys w1 w2 ltac:(lia) ltac:(lia))
    as [[Lz1 Lp1] [[Lz2 Lp2] [[Lz3 Lp3] [Lz4 Lp4]]]].
  cbv zeta in Lz1, Lp1, Lz2, Lp2, Lz3, Lp3, Lz4, Lp4.
  assert (Half : ((2 * length (poles sys) + 1) / 2 = length (poles sys))%nat).
  { pose proof (Nat.div_mod_eq (2 * length (poles sys) + 1) 2) as Hdm.
    pose proof (Nat.mod_upper_bound (2 * length (poles sys) + 1) 2 ltac:(discriminate)).
    lia. }
  split; [|split; [|split]].
  - apply bilinear_cascade_or_error; lia.
  - apply bilinear_cascade_or_error; lia.
  - rewrite <- Half at 1. apply bilinear_cascade_or_error; lia.
  - rewrite <- Half at 1. apply bilinear_cascade_or_error; lia.
Qed.

(** X21: whatever the arithmetic and the library functions, the four
    Butterworth designs of an order [N >= 1] end in a cascade, of
    [ceil (N / 2)] biquads for low-pass and high-pass and of [N] biquads
    for band-pass and band-stop, or in one of the two errors. *)
Theorem butterworth_designs_outcomes (fuel : nat) (N : Z) (w1 w2 fs : D) :
  1 <= N < 2 ^ 30 ->
  let n := Z.to_nat N in
  let design (d : zpk D) := zpk2sos (S (S fuel)) (bilinear_transform d fs) in
  cascade_or_error ((n + 1) / 2) (design (lp2lp (analog_lowpass N) w1)) /\
  cascade_or_error ((n + 1) / 2) (design (lp2hp (analog_lowpass N) w1)) /\
  cascade_or_error n (design (lp2bp (analog_lowpass N) w1 w2)) /\
  cascade_or_error n (design (lp2bs (analog_lowpass N) w1 w2)).
Proof.
  intros HN n design. subst n design. cbv beta.
  destruct (analog_lowpass_shape (D := D) N) as [Hz [_ [_ Hl]]];
    [unfold INT_MAX; lia|].
  assert (Lz : length (zeros (analog_lowpass (D := D) N)) = O) by (rewrite Hz; reflexivity).
  destruct (transform_lengths (analog_lowpass N) w1 w2)
    as [[Lz1 Lp1] [[Lz2 Lp2] [[Lz3 Lp3] [Lz4 Lp4]]]]; [lia | lia |].
  cbv zeta in Lz1, Lp1, Lz2, Lp2, Lz3, Lp3, Lz4, Lp4.
  assert (Half : ((2 * Z.to_nat N + 1) / 2 = Z.to_nat N)%nat).
  { pose proof (Nat.div_mod_eq (2 * Z.to_nat N + 1) 2) as Hdm.
    pose proof (Nat.mod_upper_bound (2 * Z.to_nat N + 1) 2 ltac:(discriminate)).
    lia. }
  split; [|split; [|split]].
  - apply bilinear_cascade_or_error; lia.
  - apply bilinear_cascade_or_error; lia.
  - rewrite <- Half at 1. apply bilinear_cascade_or_error; lia.
  - rewrite <- Half at 1. apply bilinear_cascade_or_error; lia.
Qed.

End Design_Outcomes.

(** ** What the preprocessing appends *)

Section Padding_Proofs.

Context {D : Type} {DD : Double D}.

Lemma pad_loop_extends (fuel : nat) (other : list (complex D)) :
  forall (i : Z) (grown r : list (complex D)),
    pad_loop fuel i other grown = Ok r ->
    exists k, r = grown ++ repeat (c_of_int 0) k.
Proof.
  induction fuel as [|fuel IH]; intros i grown r H; cbn [pad_loop] in H.
  - discriminate H.
  - destruct (i <? size_t_sub (length other) (length grown)).
    + destruct (i =? INT_MAX); [discriminate H|].
      apply IH in H. destruct H as [k ->].
      exists (S k). rewrite <- app_assoc. reflexivity.
    + injection H as <-. exists O. rewrite app_nil_r. reflexivity.
Qed.

(** Every entry of the arrays the preprocessing hands on is an entry of
    the input or a zero. *)
Lemma preprocess_Ok_entries (fuel : nat) (sys : zpk D) (n : nat)
    (ps zs : list (complex D)) :
  preprocess fuel sys = Ok (n, ps, zs) ->
  (forall x, In x ps -> In x (poles sys) \/ x = c_of_int 0) /\
  (forall x, In x zs -> In x (zeros sys) \/ x = c_of_int 0).
Proof.
  intro H. unfold preprocess in H.
  apply bind_Ok_inv in H. destruct H as [ps0 [Hp H]].
  apply bind_Ok_inv in H. destruct H as [zs0 [Hz H]].
  apply bind_Ok_inv in H. destruct H as [u [_ H]].
  apply pad_loop_extends in Hp, Hz. destruct Hp as [k1 ->], Hz as [k2 ->].
  assert (G : forall (v : list (complex D)) (k : nat) (x : complex D),
             In x (v ++ repeat (c_of_int 0) k) -> In x v \/ x = c_of_int 0).
  { intros v k x Hx. apply in_app_or in Hx. destruct Hx as [Hx|Hx]; [left; exact Hx|].
    right. apply repeat_spec in Hx. exact Hx. }
  destruct (length (zeros sys ++ repeat (c_of_int 0) k2) mod 2 =? 1)%nat;
    injection H as _ <- <-; split; intros x Hx;
    try (apply in_app_or in Hx; destruct Hx as [Hx|[<-|[]]]; [|right; reflexivity]);
    apply (G _ _ _ Hx).
Qed.

(** X14: the arrays the preprocessing of [zpk2sos] hands on are the input
    arrays with zeros appended, of equal and even length, twice the
    number of sections. *)
Theorem preprocess_appends_zeros (fuel : nat) (sys : zpk D) (n : nat)
    (ps zs : list (complex D)) :
  preprocess fuel sys = Ok (n, ps, zs) ->
  (exists k, ps = poles sys ++ repeat (c_of_int 0) k) /\
  (exists k, zs = zeros sys ++ repeat (c_of_int 0) k) /\
  length ps = (2 * n)%nat /\ length zs = (2 * n)%nat.
Proof.
  intro H. unfold preprocess in H.
  bind_inv H. bind_inv H. bind_inv H.
  apply assert_Ok_inv in Hstep1. apply Nat.eqb_eq in Hstep1.
  apply pad_loop_extends in Hstep, Hstep0.
  destruct Hstep as [k1 ->], Hstep0 as [k2 ->].
  remember (poles sys ++ repeat (c_of_int 0) k1) as ps0 eqn:Eps.
  remember (zeros sys ++ repeat (c_of_int 0) k2) as zs0 eqn:Ezs.
  pose proof (Nat.div_mod_eq (length zs0) 2) as Hdm.
  pose proof (Nat.mod_upper_bound (length zs0) 2 ltac:(discriminate)) as Hub.
  pose proof (Nat.div_mod_eq (length zs0 + 1) 2) as Hdm1.
  pose proof (Nat.mod_upper_bound (length zs0 + 1) 2 ltac:(discriminate)) as Hub1.
  destruct (Nat.eqb_spec (length zs0 mod 2) 1) as [E|E]; injection H as <- <- <-;
    change (fst (Nat.divmod (length zs0 + 1) 1 0 1)) with ((length zs0 + 1) / 2)%nat.
  - split; [exists (S k1)|split; [exists (S k2)|]].
    + rewrite Eps, <- app_assoc. f_equal. symmetry.
      apply (repeat_cons k1 (c_of_int (D := D) 0)).
    + rewrite Ezs, <- app_assoc. f_equal. symmetry.
      apply (repeat_cons k2 (c_of_int (D := D) 0)).
    + rewrite !length_app. change (length [c_of_int (D := D) 0]) with 1%nat. lia.
  - split; [exists k1; exact Eps|]. split; [exists k2; exact Ezs|]. lia.
Qed.

End Padding_Proofs.

(** ** The design pipeline in exact arithmetic *)

Section Exact_Pipeline.

Local Open Scope R_scope.

(** Unfolds the complex operations down to the operations of [R]. *)
Ltac to_reals :=
  unfold c_prod, c_div, c_mul, c_add, c_sub, c_neg, c_conj, c_abs, c_exp, c_of_int,
    c_of_double, d_times_c, d_plus_c, d_minus_c, d_over_c, c_minus_d in *;
  cbn [re im d_of_Z d_add d_sub d_mul d_div d_neg d_abs d_sqrt d_exp d_cos d_sin
       d_pow PI Double_R Libm_R Cmath_R] in *.

Lemma tol_pos_R : 0 < tol (D := R).
Proof.
  unfold tol. cbn [d_of_Z d_mul d_epsilon Double_R].
  apply Rmult_lt_0_compat; [lra|].
  apply Rinv_0_lt_compat. apply IZR_lt. reflexivity.
Qed.

Lemma is_real_R (z : complex R) : is_real z = true <-> Rabs (im z) < tol.
Proof.
  unfold is_real. cbn [d_ltb d_abs Double_R]. unfold Rltb.
  destruct (Rlt_dec (Rabs (im z)) tol); split; intro; try assumption;
    try reflexivity; try discriminate; contradiction.
Qed.

Lemma is_real_exact_R (z : complex R) : im z = 0 -> is_real z = true.
Proof. intro E. apply is_real_R. rewrite E, Rabs_R0. apply tol_pos_R. Qed.

Lemma c_conj_conj_R (z : complex R) : c_conj (c_conj z) = z.
Proof. destruct z. to_reals. f_equal. ring. Qed.

Lemma is_real_conj_R (z : complex R) : is_real (c_conj z) = is_real z.
Proof.
  unfold is_real, c_conj. cbn [im d_ltb d_abs d_neg Double_R].
  rewrite Rabs_Ropp. reflexivity.
Qed.

Lemma positive_conj_R (z : complex R) : positive_imag (c_conj z) = negative_imag z.
Proof.
  unfold positive_imag, negative_imag. rewrite is_real_conj_R.
  destruct (is_real z) eqn:E; [reflexivity|]. cbn [negb andb].
  assert (Hn : ~ Rabs (im z) < tol) by (intro H; apply is_real_R in H; congruence).
  pose proof tol_pos_R as Ht.
  unfold c_conj. cbn [im d_ltb d_of_Z d_neg Double_R]. unfold Rltb.
  destruct (Rlt_dec 0 (- im z)) as [H1|H1], (Rlt_dec 0 (im z)) as [H2|H2];
    try reflexivity; exfalso.
  - lra.
  - apply Hn. replace (im z) with 0 by lra. rewrite Rabs_R0. exact Ht.
Qed.

Lemma negative_conj_R (z : complex R) : negative_imag (c_conj z) = positive_imag z.
Proof. rewrite <- positive_conj_R, c_conj_conj_R. reflexivity. Qed.

Lemma within_tol_self_R (a : complex R) : within_tol a a = true.
Proof.
  unfold within_tol. destruct a as [x y]. to_reals. cbn [d_ltb Double_R]. unfold Rltb.
  replace ((x - x) * (x - x) + (y - y) * (y - y)) with 0 by ring.
  rewrite sqrt_0. destruct (Rlt_dec 0 tol) as [_|H]; [reflexivity|].
  exfalso. apply H, tol_pos_R.
Qed.

Lemma filter_map_commute {A : Type} (f g : A -> bool) (h : A -> A) (v : list A) :
  (forall x, f (h x) = g x) -> filter f (map h v) = map h (filter g v).
Proof.
  intro H. induction v as [|x v IH]; cbn [map filter]; [reflexivity|].
  rewrite H. destruct (g x); cbn [map]; rewrite IH; reflexivity.
Qed.

(** X13: in exact arithmetic [cplxpair] accepts every array that holds the
    conjugate of each of its entries as often as the entry. *)
Theorem cplxpair_accepts_conj_closed (z : list (complex R)) :
  conj_closed z -> returns (cplxpair z).
Proof.
  intro Hc. unfold returns.
  destruct (cplxpair_fails_or_returns z) as [Ht|Hr]; [exfalso | exact Hr].
  assert (Hu : unmatched (filter positive_imag z) (filter negative_imag z)).
  { pose proof (cplxpair_throws_sorted z) as H. cbv zeta in H. apply H in Ht.
    pose proof (sort_perm complex_comparator z) as Hs.
    revert Ht. apply unmatched_perm; apply filter_perm; exact Hs. }
  destruct Hu as [Hlen|[a [Ha Hno]]].
  - apply Hlen.
    rewrite <- (Permutation_length (filter_perm positive_imag _ _ Hc)).
    rewrite (filter_map_commute positive_imag negative_imag c_conj z positive_conj_R).
    apply length_map.
  - apply filter_In in Ha. destruct Ha as [Ha Hpos].
    assert (Hb : In (c_conj a) (filter negative_imag z)).
    { apply filter_In. split.
      - apply (Permutation_in _ Hc). apply in_map. exact Ha.
      - rewrite negative_conj_R. exact Hpos. }
    specialize (Hno _ Hb). rewrite c_conj_conj_R, within_tol_self_R in Hno.
    discriminate Hno.
Qed.

(** *** Conjugate symmetry through the pipeline *)

Lemma conj_closed_app (u v : list (complex R)) :
  conj_closed u -> conj_closed v -> conj_closed (u ++ v).
Proof.
  unfold conj_closed. intros Hu Hv. rewrite map_app. apply Permutation_app; assumption.
Qed.

Lemma conj_closed_map (f : complex R -> complex R) (v : list (complex R)) :
  (forall x, c_conj (f x) = f (c_conj x)) -> conj_closed v -> conj_closed (map f v).
Proof.
  unfold conj_closed. intros Hf Hv. rewrite map_map.
  rewrite (map_ext _ (fun x => f (c_conj x)) Hf), <- map_map.
  apply Permutation_map. exact Hv.
Qed.

Lemma conj_closed_repeat (x : complex R) (k : nat) :
  c_conj x = x -> conj_closed (repeat x k).
Proof.
  intro E. unfold conj_closed. induction k as [|k IH]; cbn [repeat map].
  - apply perm_nil.
  - rewrite E. apply perm_skip. exact IH.
Qed.

Lemma conj_of_int_R (n : Z) : c_conj (c_of_int (D := R) n) = c_of_int n.
Proof. to_reals. f_equal. apply Ropp_0. Qed.

Lemma conj_d_times_c_R (w : R) (x : complex R) :
  c_conj (d_times_c w x) = d_times_c w (c_conj x).
Proof. destruct x. to_reals. f_equal. ring. Qed.

Lemma conj_c_div_R (a b : complex R) :
  c_conj (c_div a b) = c_div (c_conj a) (c_conj b).
Proof.
  destruct a as [ar ai], b as [br bi]. to_reals.
  replace (br * br + - bi * - bi) with (br * br + bi * bi) by ring.
  unfold Rdiv. f_equal; ring.
Qed.

Lemma conj_d_over_c_R (w : R) (x : complex R) :
  c_conj (d_over_c w x) = d_over_c w (c_conj x).
Proof.
  unfold d_over_c. rewrite conj_c_div_R. f_equal.
  to_reals. f_equal. apply Ropp_0.
Qed.

Lemma conj_tustin_R (fs2 : R) (x : complex R) :
  c_conj (c_div (d_plus_c fs2 x) (d_minus_c fs2 x))
  = c_div (d_plus_c fs2 (c_conj x)) (d_minus_c fs2 (c_conj x)).
Proof. rewrite conj_c_div_R. destruct x. reflexivity. Qed.

(** X15: in exact arithmetic [lp2lp], [lp2hp] and [bilinear_transform] keep
    the conjugate symmetry of the zeros and of the poles. *)
Theorem transforms_keep_conj_closed (sys : zpk R) (w : R) :
  (Z.of_nat (length (zeros sys)) < 2 ^ 31)%Z ->
  (Z.of_nat (length (poles sys)) < 2 ^ 31)%Z ->
  conj_closed (zeros sys) -> conj_closed (poles sys) ->
  (conj_closed (zeros (lp2lp sys w)) /\ conj_closed (poles (lp2lp sys w))) /\
  (conj_closed (zeros (lp2hp sys w)) /\ conj_closed (poles (lp2hp sys w))) /\
  (conj_closed (zeros (bilinear_transform sys w)) /\
   conj_closed (poles (bilinear_transform sys w))).
Proof.
  intros Hz Hp Cz Cp. split; [|split].
  - destruct (lp2lp_arrays_map sys w) as [-> ->].
    split; apply conj_closed_map; try assumption; intro x; apply conj_d_times_c_R.
  - destruct (lp2hp_arrays_map sys w Hz Hp) as [-> ->]. split.
    + apply conj_closed_app.
      * apply conj_closed_map; [intro x; apply conj_d_over_c_R | exact Cz].
      * apply conj_closed_repeat, conj_of_int_R.
    + apply conj_closed_map; [intro x; apply conj_d_over_c_R | exact Cp].
  - destruct (bilinear_transform_arrays sys w Hz Hp) as [-> ->]. split.
    + apply conj_closed_app.
      * apply conj_closed_map; [intro x; apply conj_tustin_R | exact Cz].
      * apply conj_closed_repeat, conj_of_int_R.
    + apply conj_closed_map; [intro x; apply conj_tustin_R | exact Cp].
Qed.

(** *** Exact instances of the factorizer

    In exact arithmetic the products of a conjugate pair are real and
    the test of [zpk2tf] cannot fail on a section; on binary64 the
    products are rounded, and it can.  The lemmas of this part hold for
    the reals only and serve to run the factorizer on exact inputs. *)

Lemma all_real3_R (a b c : complex R) :
  im a = 0 -> im b = 0 -> im c = 0 -> all_real [a; b; c] = Ok tt.
Proof.
  intros Ha Hb Hc. cbn [all_real].
  rewrite (is_real_exact_R a Ha), (is_real_exact_R b Hb), (is_real_exact_R c Hc).
  reflexivity.
Qed.

Lemma zpk2tf_section_R (z0 z1 p0 p1 : complex R) (g : R) :
  section_pair [z0; z1] -> section_pair [p0; p1] ->
  zpk2tf (Zpk [z0; z1] [p0; p1] g) =
  Ok (Biquad g
             (- (g * (re z0 + re z1)))
             (g * (re z0 * re z1 - im z0 * im z1))
             (- (re p0 + re p1))
             (re p0 * re p1 - im p0 * im p1)).
Proof.
  intros [zx [zy [Ez Hz]]] [px [py [Ep Hp]]].
  injection Ez as <- <-. injection Ep as <- <-.
  assert (Fz : im z0 + im z1 = 0 /\ re z0 * im z1 + im z0 * re z1 = 0).
  { destruct Hz as [->|[E0 E1]].
    - destruct z0 as [x y]. to_reals. split; ring.
    - rewrite E0, E1. cbn [d_of_Z Double_R]. split; ring. }
  assert (Fp : im p0 + im p1 = 0 /\ re p0 * im p1 + im p0 * re p1 = 0).
  { destruct Hp as [->|[E0 E1]].
    - destruct p0 as [x y]. to_reals. split; ring.
    - rewrite E0, E1. cbn [d_of_Z Double_R]. split; ring. }
  destruct Fz as [Fz1 Fz2], Fp as [Fp1 Fp2].
  destruct z0 as [z0r z0i], z1 as [z1r z1i], p0 as [p0r p0i], p1 as [p1r p1i].
  cbn [re im] in *.
  unfold zpk2tf. cbn [zeros poles gain at_ nth_error bind].
  rewrite all_real3_R;
    [cbn [bind] | to_reals; reflexivity | to_reals; lra | to_reals; exact Fp2].
  rewrite all_real3_R; [cbn [bind] | to_reals; ring | to_reals | to_reals].
  2: { replace ((- z0i - z1i) * g) with (- g * (z0i + z1i)) by ring.
       rewrite Fz1. ring. }
  2: { replace (z0r * g * z1i + z0i * g * z1r) with (g * (z0r * z1i + z0i * z1r)) by ring.
       rewrite Fz2. ring. }
  cbn [nth]. to_reals. do 2 f_equal; ring.
Qed.

Lemma emit_loop_zpk2tf_R (n : nat) (k : R)
    (zeros_sos poles_sos : list (list (complex R))) (s1 : nat) :
  forall acc : list (biquad R),
    (s1 <= length zeros_sos)%nat -> (s1 <= length poles_sos)%nat ->
    Forall section_pair zeros_sos -> Forall section_pair poles_sos ->
    exists sos, emit_loop zpk2tf n k zeros_sos poles_sos s1 acc = Ok sos.
Proof.
  induction s1 as [|s IH]; intros acc Hz Hp Fz Fp; cbn [emit_loop].
  - eexists. reflexivity.
  - unfold at_.
    destruct (nth_error zeros_sos s) as [zs|] eqn:Ez;
      [|apply nth_error_None in Ez; lia].
    destruct (nth_error poles_sos s) as [ps|] eqn:Ep;
      [|apply nth_error_None in Ep; lia].
    cbn [bind].
    assert (Sz : section_pair zs).
    { rewrite Forall_forall in Fz. apply Fz. eapply nth_error_In. exact Ez. }
    assert (Sp : section_pair ps).
    { rewrite Forall_forall in Fp. apply Fp. eapply nth_error_In. exact Ep. }
    destruct Sz as [z0 [z1 [-> Hz01]]]. destruct Sp as [p0 [p1 [-> Hp01]]].
    rewrite zpk2tf_section_R; [| exists z0, z1; split; [reflexivity | exact Hz01]
                               | exists p0, p1; split; [reflexivity | exact Hp01]].
    cbn [bind]. apply IH; assumption || lia.
Qed.

(** An exact system of real zeros and real poles, as many zeros as poles
    or one zero more, is factored into [ceil (|zeros| / 2)] biquads. *)
Lemma zpk2sos_real_roots_R (fuel : nat) (sys : zpk R) :
  (forall x, In x (zeros sys) -> im x = 0) ->
  (forall x, In x (poles sys) -> im x = 0) ->
  length (zeros sys) = length (poles sys) \/ length (zeros sys) = S (length (poles sys)) ->
  exists sos,
    zpk2sos (S (S fuel)) sys = Ok sos /\
    length sos = ((length (zeros sys) + 1) / 2)%nat.
Proof.
  intros Rz Rp Hc.
  destruct (preprocess_returns fuel sys Hc) as [ps [zs [Hpre [Hlp Hlz]]]].
  destruct (preprocess_Ok_entries _ _ _ _ _ Hpre) as [Eps Ezs].
  assert (Aps : forall c, In c ps -> is_real c = true).
  { intros c Hin. apply is_real_exact_R.
    destruct (Eps c Hin) as [H| ->]; [apply Rp; exact H | reflexivity]. }
  assert (Azs : forall c, In c zs -> is_real c = true).
  { intros c Hin. apply is_real_exact_R.
    destruct (Ezs c Hin) as [H| ->]; [apply Rz; exact H | reflexivity]. }
  destruct (cplxpair_reals_returns ps Aps) as [o1 Ho1].
  destruct (cplxpair_reals_returns zs Azs) as [o2 Ho2].
  assert (Hcan : canonicalize ps zs
                 = Ok (sort closer_to_unit_circle (fst o1 ++ snd o1), fst o2 ++ snd o2)).
  { unfold canonicalize. rewrite Ho1. cbn [bind]. rewrite Ho2. reflexivity. }
  destruct (canonicalize_balanced zero_is_real_R _ _ _ _ _ Hlp Hlz Hcan) as [Bp Bz].
  destruct (canonicalize_reals_exact _ _ _ _ Hcan) as [Xp Xz].
  destruct (pair_loop_pairs _ _ _ [] [] Bp Bz Xp Xz)
    as [pss [zss [Hloop [Hl1 [Hl2 [Fp Fz]]]]]].
  cbn [app] in Hloop.
  destruct (emit_loop_zpk2tf_R ((length (zeros sys) + 1) / 2) (gain sys) zss pss
              ((length (zeros sys) + 1) / 2) []) as [sos Hs]; try assumption; try lia.
  exists sos. split.
  - unfold zpk2sos, zpk2sos_with. rewrite Hpre. cbn [bind].
    rewrite Hcan. cbn [bind]. rewrite Hloop. cbn [bind]. exact Hs.
  - apply emit_loop_length in Hs. exact Hs.
Qed.

(** *** The Butterworth prototype *)

Lemma prototype_angle_bounds (N m : Z) :
  (1 <= N)%Z -> (- N < m < N)%Z ->
  - (Rtrigo1.PI / 2) < Rtrigo1.PI * IZR m / (2 * IZR N) < Rtrigo1.PI / 2.
Proof.
  intros HN Hm.
  assert (Nn : 0 < IZR N) by (apply IZR_lt; lia).
  assert (Hq : -1 < IZR m / IZR N < 1).
  { assert (Hm1 : - IZR N < IZR m) by (rewrite <- opp_IZR; apply IZR_lt; lia).
    assert (Hm2 : IZR m < IZR N) by (apply IZR_lt; lia).
    assert (Eq : IZR m / IZR N * IZR N = IZR m) by (field; lra).
    split; nra. }
  replace (Rtrigo1.PI * IZR m / (2 * IZR N)) with (Rtrigo1.PI / 2 * (IZR m / IZR N))
    by (field; lra).
  pose proof PI_RGT_0 as Hpi. split; nra.
Qed.

(** X18: in exact arithmetic every pole of the prototype lies in the open
    left half-plane: the analog filter is stable. *)
Theorem analog_lowpass_stable (N : Z) :
  (1 <= N < INT_MAX)%Z ->
  Forall (fun p => re p < 0) (poles (analog_lowpass (D := R) N)).
Proof.
  intro HN.
  destruct (analog_lowpass_shape (D := R) N) as [_ [_ [Hp _]]]; [lia|].
  rewrite Hp. apply Forall_forall. intros p Hin.
  apply in_map_iff in Hin. destruct Hin as [j [<- Hj]].
  apply in_seq in Hj.
  rewrite prototype_pole_R. cbn [re].
  assert (Hc : 0 < cos (Rtrigo1.PI * IZR (- N + 1 + 2 * Z.of_nat j) / (2 * IZR N))).
  { apply cos_gt_0; apply prototype_angle_bounds; lia. }
  lra.
Qed.

Lemma prototype_pole_conj (N m : Z) :
  prototype_pole (D := R) N (- m) = c_conj (prototype_pole N m).
Proof.
  rewrite !prototype_pole_R. unfold c_conj. cbn [re im d_neg Double_R].
  replace (Rtrigo1.PI * IZR (- m) / (2 * IZR N))
    with (- (Rtrigo1.PI * IZR m / (2 * IZR N)))
    by (rewrite opp_IZR; unfold Rdiv; ring).
  rewrite cos_neg, sin_neg. reflexivity.
Qed.

Lemma rev_seq_0 (n : nat) : rev (seq 0 n) = map (fun j => (n - 1 - j)%nat) (seq 0 n).
Proof.
  induction n as [|n IH]; [reflexivity|].
  replace (rev (seq 0 (S n))) with (n :: rev (seq 0 n))
    by (rewrite seq_S, rev_app_distr; reflexivity).
  rewrite IH. cbn [seq map]. apply (f_equal2 cons); [lia|].
  rewrite <- seq_shift, map_map. apply map_ext. intro j. lia.
Qed.

(** X19: in exact arithmetic the poles of the prototype read backwards are
    their conjugates: the array is conjugate-symmetric. *)
Theorem analog_lowpass_conjugate_symmetric (N : Z) :
  (1 <= N < INT_MAX)%Z ->
  rev (poles (analog_lowpass (D := R) N)) = map c_conj (poles (analog_lowpass (D := R) N))
  /\ conj_closed (poles (analog_lowpass (D := R) N)).
Proof.
  intro HN.
  assert (E : rev (poles (analog_lowpass (D := R) N))
              = map c_conj (poles (analog_lowpass (D := R) N))).
  { destruct (analog_lowpass_shape (D := R) N) as [_ [_ [Hp _]]]; [lia|].
    rewrite Hp, <- map_rev, rev_seq_0, !map_map.
    apply map_ext_in. intros j Hj. apply in_seq in Hj.
    rewrite <- prototype_pole_conj. f_equal. lia. }
  split; [exact E|].
  unfold conj_closed. rewrite <- E. apply Permutation_sym, Permutation_rev.
Qed.

(** *** The gains *)

(** X22: in exact arithmetic [lp2lp] at cutoff 1 changes nothing, and two
    of them in a row are one at the product of the cutoffs. *)
Theorem lp2lp_composes (sys : zpk R) (w1 w2 : R) :
  (Z.of_nat (length (zeros sys)) < 2 ^ 31)%Z ->
  (Z.of_nat (length (poles sys)) < 2 ^ 31)%Z ->
  lp2lp sys 1 = sys /\
  lp2lp (lp2lp sys w1) w2 = lp2lp sys (w1 * w2).
Proof.
  intros Hz Hp.
  assert (H1 : forall x : complex R, d_times_c 1 x = x).
  { intros [x y]. to_reals. f_equal; ring. }
  assert (H2 : forall x : complex R, d_times_c w2 (d_times_c w1 x) = d_times_c (w1 * w2) x).
  { intros [x y]. to_reals. f_equal; ring. }
  assert (U : forall (d : zpk R) (w : R),
             lp2lp d w =
             Zpk (map (d_times_c w) (zeros d)) (map (d_times_c w) (poles d))
                 (gain d * powerRZ w (degree_of d))).
  { intros d w. unfold lp2lp. rewrite !fold_left_push. reflexivity. }
  assert (Hd : degree_of (lp2lp sys w1) = degree_of sys).
  { rewrite U. unfold degree_of. cbn [zeros poles]. rewrite !length_map. reflexivity. }
  split.
  - rewrite U, !(map_ext _ _ H1), !map_id, powerRZ_R1, Rmult_1_r.
    destruct sys. reflexivity.
  - rewrite (U (lp2lp sys w1) w2), Hd, !U. cbn [zeros poles gain].
    rewrite !map_map, !(map_ext _ _ H2), powerRZ_mult, Rmult_assoc. reflexivity.
Qed.

(** X23: in exact arithmetic the gain of [lp2hp] and of [lp2bs] is the
    input gain times the real part of the product of the negated zeros
    over the product of the negated poles: the factor [1 + i] that both
    running products start from cancels. *)
Theorem lp2hp_lp2bs_gain (sys : zpk R) (w center : R) :
  gain (lp2hp sys w) =
    gain sys * re (c_div (c_prod (map c_neg (zeros sys))) (c_prod (map c_neg (poles sys))))
  /\ gain (lp2bs sys center w) = gain (lp2hp sys w).
Proof.
  split; [|reflexivity].
  unfold lp2hp. cbn [gain]. unfold negated_product.
  rewrite !fold_left_c_mul_R.
  change (Cplx (d_of_Z 1) (d_of_Z 1)) with (Cplx 1 1).
  rewrite seed_cancels. reflexivity.
Qed.

(** *** The numerators of the cascade *)

Lemma zpk2tf_numerator_R (s : zpk R) (b : biquad R) :
  zpk2tf s = Ok b ->
  b0 b = gain s /\
  exists z0 z1,
    b1 b = - (gain s * (re z0 + re z1)) /\
    b2 b = gain s * (re z0 * re z1 - im z0 * im z1).
Proof.
  intro H. unfold zpk2tf in H.
  apply bind_Ok_inv in H. destruct H as [p0 [_ H]].
  apply bind_Ok_inv in H. destruct H as [p1 [_ H]].
  apply bind_Ok_inv in H. destruct H as [u1 [_ H]].
  apply bind_Ok_inv in H. destruct H as [[z0r z0i] [_ H]].
  apply bind_Ok_inv in H. destruct H as [[z1r z1i] [_ H]].
  apply bind_Ok_inv in H. destruct H as [u2 [_ H]].
  injection H as <-. cbn [b0 b1 b2 nth].
  split; [to_reals; ring|].
  exists (Cplx z0r z0i), (Cplx z1r z1i). to_reals. split; ring.
Qed.

(** X24: in exact arithmetic the leading numerator coefficient [b0] of
    the first biquad of the cascade is the gain of the input and that of
    every other biquad is 1; with gain 0 the whole numerator of the first
    biquad is 0. *)
Theorem cascade_numerators (fuel : nat) (sys : zpk R) (sos : list (biquad R)) :
  zpk2sos fuel sys = Ok sos ->
  (forall j b, nth_error sos j = Some b ->
     b0 b = if (j =? 0)%nat then gain sys else 1) /\
  (gain sys = 0 ->
   forall b, nth_error sos 0 = Some b -> b0 b = 0 /\ b1 b = 0 /\ b2 b = 0).
Proof.
  intro H. unfold zpk2sos in H.
  destruct (zpk2sos_with_sections zpk2tf fuel sys sos H) as [secs [Hs Hf]].
  pose proof (zpk2sos_sections_gains fuel sys secs Hs) as Hg.
  assert (G : forall j b, nth_error sos j = Some b ->
              exists s, nth_error secs j = Some s /\ zpk2tf s = Ok b).
  { clear Hs Hg H. induction Hf as [|s b secs' sos' Hsb _ IH]; intros j b' Hj.
    - destruct j; discriminate Hj.
    - destruct j as [|j]; cbn [nth_error] in *.
      + injection Hj as <-. exists s. split; [reflexivity | exact Hsb].
      + apply IH. exact Hj. }
  split.
  - intros j b Hj. destruct (G j b Hj) as [s [Hsj Hb]].
    destruct (zpk2tf_numerator_R s b Hb) as [-> _].
    rewrite (Hg j s Hsj). reflexivity.
  - intros H0 b Hj. destruct (G O b Hj) as [s [Hsj Hb]].
    destruct (zpk2tf_numerator_R s b Hb) as [E0 [z0 [z1 [E1 E2]]]].
    rewrite (Hg O s Hsj) in E0, E1, E2. cbn [Nat.eqb] in E0, E1, E2.
    rewrite H0 in E0, E1, E2. rewrite E0, E1, E2. repeat split; ring.
Qed.

End Exact_Pipeline.

(** ** Orders that are not positive *)

Section Nonpositive_Order.

Context {D : Type} {DD : Double D} {LM : Libm D} {CM : Cmath D}.

(** X25: for an order that is 0 or negative the prototype loop fails its
    first test, whatever fuel it is given: [analog_lowpass] returns the
    system without poles, no check rejects it, and the low-pass design
    ends in the empty cascade. *)
Theorem nonpositive_order_empty_cascade (N : Z) (wc fs : D) (fuel : nat) :
  N <= 0 ->
  lowpass_loop fuel N (- N + 1) [] = [] /\
  analog_lowpass N = Zpk [] [] (d_of_Z 1) /\
  zpk2sos (S fuel) (bilinear_transform (lp2lp (analog_lowpass N) wc) fs) = Ok [].
Proof.
  intro HN.
  assert (E : analog_lowpass N = Zpk [] [] (d_of_Z 1)).
  { unfold analog_lowpass. replace (Z.to_nat N) with O by lia. reflexivity. }
  split; [|split; [exact E|]].
  - destruct fuel as [|f]; cbn [lowpass_loop]; [reflexivity|].
    destruct (Z.ltb_spec (- N + 1) N); [lia | reflexivity].
  - rewrite E. unfold zpk2sos, zpk2sos_with.
    rewrite preprocess_equal by reflexivity.
    reflexivity.
Qed.

End Nonpositive_Order.

(** ** The logic error of zpk2tf, on binary64 *)

Section Rounded_Products.

Local Open Scope float_scope.

(** X17: on binary64 the logic error of [zpk2tf] is within reach of a valid
    system.  The zeros and the poles of [scaled_pair] are exact conjugate
    pairs; with gain 1 [zpk2sos] returns its one biquad, with gain 250 it
    throws.  [zpk2tf] multiplies the gain into the first zero before it
    multiplies by the second, and the two rounded products that make the
    imaginary part of [(g z) conj(z)] no longer cancel: what is left is
    above the tolerance, which does not grow with the gain. *)
Theorem scaled_pair_rejected :
  conj_closed (zeros (scaled_pair 250)) /\
  conj_closed (poles (scaled_pair 250)) /\
  (exists sos, zpk2sos 2 (scaled_pair 1) = Ok sos /\ length sos = 1%nat) /\
  zpk2sos 2 (scaled_pair 250) = Throw complex_coefficients /\
  zpk2tf (scaled_pair 250) = Throw complex_coefficients /\
  is_real (c_mul (d_times_c 250 (fcplx 0x1.5c28f5c28f5c3p-1 0x1.6666666666666p-1))
                 (fcplx 0x1.5c28f5c28f5c3p-1 (-0x1.6666666666666p-1))) = false.
Proof.
  split; [|split; [|split; [|split; [|split]]]].
  - unfold conj_closed.
    change (map c_conj (zeros (scaled_pair 250)))
      with [fcplx 0x1.5c28f5c28f5c3p-1 (-0x1.6666666666666p-1);
            fcplx 0x1.5c28f5c28f5c3p-1 0x1.6666666666666p-1].
    apply perm_swap.
  - unfold conj_closed.
    change (map c_conj (poles (scaled_pair 250)))
      with [fcplx 0.5 (-0.25); fcplx 0.5 0.25].
    apply perm_swap.
  - eexists. split; [vm_compute; reflexivity | reflexivity].
  - vm_compute. reflexivity.
  - vm_compute. reflexivity.
  - vm_compute. reflexivity.
Qed.

End Rounded_Products.

(** ** Instances of the properties above *)

Section Instances.

(** On binary64 *)

Lemma zpk2sos_Ok_sections_witness :
  length (zeros two_sections) = length (poles two_sections) /\
  exists sos, zpk2sos 1 two_sections = Ok sos /\ length sos = 2%nat.
Proof.
  assert (H : zpk2sos 1 two_sections
              = Ok [Biquad 5 2.5 1.5625 (-1) 0.3125; Biquad 1 (-1) 0.5 (-1.75) 0.78125]%float)
    by (vm_compute; reflexivity).
  split; [reflexivity|]. eexists. split; [exact H|].
  apply (zpk2sos_Ok_sections 1 two_sections _
           ltac:(vm_compute; reflexivity) ltac:(vm_compute; reflexivity) H).
Defined.

Lemma zpk2sos_outcomes_witness :
  exists sos, zpk2sos 2 two_sections = Ok sos /\ length sos = 2%nat.
Proof.
  destruct (zpk2sos_outcomes zero_is_real_float 0 two_sections (or_introl eq_refl))
    as [H|[H|H]].
  - vm_compute in H. discriminate H.
  - vm_compute in H. discriminate H.
  - exact H.
Defined.

Lemma cplxpair_Ok_accounts_witness :
  (length [fcplx 2 0] + 2 * length [fcplx 1 1] = length pair_and_real)%nat.
Proof.
  apply (cplxpair_Ok_accounts pair_and_real [fcplx 2 0] [fcplx 1 1]).
  vm_compute. reflexivity.
Defined.

Lemma cplxpair_order_independent_witness :
  cplxpair pair_and_real = Throw no_conjugate <->
  cplxpair [fcplx 1 (-1); fcplx 1 1; fcplx 2 0]%float = Throw no_conjugate.
Proof.
  apply (cplxpair_order_independent pair_and_real
           [fcplx 1 (-1); fcplx 1 1; fcplx 2 0]%float).
  apply perm_swap.
Defined.

Lemma cplxpair_all_real_witness :
  cplxpair two_reals
  = Ok (map (fun c => Cplx (re c) (d_of_Z 0)) (sort complex_comparator two_reals), []).
Proof.
  apply (cplxpair_all_real two_reals).
  intros c [<-|[<-|[]]]; vm_compute; reflexivity.
Defined.

Lemma bilinear_transform_feeds_zpk2sos_witness :
  length (zeros (bilinear_transform one_pole 1%float)) = 1%nat.
Proof.
  apply (bilinear_transform_feeds_zpk2sos 0 one_pole 1%float).
  - vm_compute. lia.
  - vm_compute. reflexivity.
Defined.

Lemma bilinear_transform_excess_zeros_witness :
  ~ returns (zpk2sos 9 (bilinear_transform two_zeros 1%float)).
Proof.
  apply (bilinear_transform_excess_zeros 9 two_zeros 1%float).
  - vm_compute. lia.
  - vm_compute. reflexivity.
Defined.

Lemma preprocess_appends_zeros_witness :
  exists k, [fcplx 0.5 0; fcplx 0 0]%float
            = poles (Zpk [fcplx (-1) 0] [fcplx 0.5 0] 1)%float ++ repeat (c_of_int 0) k.
Proof.
  destruct (preprocess_appends_zeros 1 (Zpk [fcplx (-1) 0] [fcplx 0.5 0] 1)%float 1
              [fcplx 0.5 0; fcplx 0 0]%float [fcplx (-1) 0; fcplx 0 0]%float) as [H _].
  - vm_compute. reflexivity.
  - exact H.
Defined.

(** In exact arithmetic *)

Lemma conj_closed_imaginary_pair : conj_closed imaginary_pair.
Proof.
  unfold conj_closed, imaginary_pair, c_conj. cbn [map re im d_neg Double_R].
  replace (- (-1))%R with 1%R by lra. apply perm_swap.
Qed.

Lemma conj_closed_real (x : R) : conj_closed [Cplx x 0%R].
Proof.
  unfold conj_closed, c_conj. cbn [map re im d_neg Double_R].
  rewrite Ropp_0. apply Permutation_refl.
Qed.

Lemma small_lengths (sys : zpk R) :
  (length (zeros sys) <= 1)%nat -> (length (poles sys) <= 1)%nat ->
  (Z.of_nat (length (zeros sys)) < 2 ^ 31)%Z /\ (Z.of_nat (length (poles sys)) < 2 ^ 31)%Z.
Proof. intros Hz Hp. split; lia. Qed.

Lemma analog_one_pole_lengths :
  (Z.of_nat (length (zeros analog_one_pole)) < 2 ^ 31)%Z /\
  (Z.of_nat (length (poles analog_one_pole)) < 2 ^ 31)%Z.
Proof. apply small_lengths; cbn [analog_one_pole zeros poles length]; lia. Qed.

Lemma lp2lp_spec_witness : zeros (lp2lp analog_one_pole 2%R) = [].
Proof.
  rewrite (lp2lp_spec analog_one_pole 2%R
             (proj1 analog_one_pole_lengths) (proj2 analog_one_pole_lengths)).
  reflexivity.
Defined.

Lemma lp2hp_arrays_witness : length (zeros (lp2hp analog_one_pole 2%R)) = 1%nat.
Proof.
  destruct (lp2hp_arrays analog_one_pole 2%R
              (proj1 analog_one_pole_lengths) (proj2 analog_one_pole_lengths))
    as [_ [_ [H _]]].
  exact H.
Defined.

Lemma lp2bp_spec_witness : length (poles (lp2bp analog_one_pole 1%R 2%R)) = 2%nat.
Proof.
  destruct (lp2bp_spec analog_one_pole 1%R 2%R
              (proj1 analog_one_pole_lengths) (proj2 analog_one_pole_lengths))
    as [_ [H _]].
  exact H.
Defined.

Lemma lp2bs_arrays_witness : length (zeros (lp2bs analog_one_pole 1%R 2%R)) = 2%nat.
Proof.
  destruct (lp2bs_arrays analog_one_pole 1%R 2%R
              (proj1 analog_one_pole_lengths) (proj2 analog_one_pole_lengths))
    as [_ [_ [_ H]]].
  exact H.
Defined.

Lemma designs_have_matching_counts_witness :
  length (zeros (bilinear_transform (lp2bp analog_one_pole 1%R 2%R) 1%R)) = 2%nat.
Proof.
  assert (Hle : (length (zeros analog_one_pole) <= length (poles analog_one_pole))%nat)
    by (cbn [analog_one_pole zeros poles length]; lia).
  assert (Hp : (Z.of_nat (2 * length (poles analog_one_pole)) < 2 ^ 31)%Z)
    by (cbn [analog_one_pole poles length]; lia).
  destruct (designs_have_matching_counts analog_one_pole 1%R 2%R 1%R Hle Hp)
    as [_ [_ [H _]]].
  exact (f_equal fst H).
Defined.

Lemma cplxpair_accepts_conj_closed_witness : returns (cplxpair imaginary_pair).
Proof.
  apply (cplxpair_accepts_conj_closed imaginary_pair). apply conj_closed_imaginary_pair.
Defined.

Lemma transforms_keep_conj_closed_witness :
  conj_closed (poles (bilinear_transform analog_one_pole 1%R)).
Proof.
  destruct (transforms_keep_conj_closed analog_one_pole 1%R
              (proj1 analog_one_pole_lengths) (proj2 analog_one_pole_lengths)
              (perm_nil _) (conj_closed_real (-1)%R))
    as [_ [_ [_ H]]].
  exact H.
Defined.

Lemma analog_lowpass_stable_witness :
  Forall (fun p => (re p < 0)%R) (poles (analog_lowpass (D := R) 3)).
Proof.
  apply (analog_lowpass_stable 3).
  vm_compute. split; [discriminate | reflexivity].
Defined.

Lemma analog_lowpass_conjugate_symmetric_witness :
  conj_closed (poles (analog_lowpass (D := R) 3)).
Proof.
  apply (analog_lowpass_conjugate_symmetric 3).
  vm_compute. split; [discriminate | reflexivity].
Defined.

Lemma designs_outcomes_witness :
  cascade_or_error 1 (zpk2sos 2 (bilinear_transform (lp2lp analog_one_pole 2%R) 1%R)).
Proof.
  assert (Hle : (length (zeros analog_one_pole) <= length (poles analog_one_pole))%nat)
    by (cbn [analog_one_pole zeros poles length]; lia).
  assert (Hb : Z.of_nat (2 * length (poles analog_one_pole)) < 2 ^ 31)
    by (cbn [analog_one_pole poles length]; lia).
  exact (proj1 (designs_outcomes zero_is_real_R 0 analog_one_pole 2%R 2%R 1%R Hle Hb)).
Defined.

Lemma butterworth_designs_outcomes_witness :
  cascade_or_error 2 (zpk2sos 2 (bilinear_transform
                                   (lp2bp (analog_lowpass 2) 3%R 1%R) 1%R)).
Proof.
  assert (HN : 1 <= 2 < 2 ^ 30) by (split; [discriminate | reflexivity]).
  exact (proj1 (proj2 (proj2
           (butterworth_designs_outcomes zero_is_real_R 0 2 3%R 1%R 1%R HN)))).
Defined.

Lemma lp2lp_composes_witness : lp2lp analog_one_pole 1%R = analog_one_pole.
Proof.
  apply (lp2lp_composes analog_one_pole 1%R 1%R
           (proj1 analog_one_pole_lengths) (proj2 analog_one_pole_lengths)).
Defined.

Lemma cascade_numerators_witness :
  exists sos,
    zpk2sos 2 real_first_order = Ok sos /\
    forall j b, nth_error sos j = Some b ->
      b0 b = if (j =? 0)%nat then gain real_first_order else 1%R.
Proof.
  assert (Hr : exists sos, zpk2sos 2 real_first_order = Ok sos /\ length sos = 1%nat).
  { apply (zpk2sos_real_roots_R 0 real_first_order).
    - intros x [<-|[]]. reflexivity.
    - intros x [<-|[]]. reflexivity.
    - left. reflexivity. }
  destruct Hr as [sos [H _]].
  exists sos. split; [exact H|].
  apply (cascade_numerators 2 real_first_order sos H).
Defined.

Lemma nonpositive_order_empty_cascade_witness :
  zpk2sos 1 (bilinear_transform (lp2lp (analog_lowpass 0) 2%R) 1%R) = Ok [].
Proof.
  apply (nonpositive_order_empty_cascade (D := R) 0 2%R 1%R 0).
  discriminate.
Defined.

End Instances.
